(** * Atlas Storage: the credential store and the quota middleware

    A shallow embedding of [pkg/user/user.go], [internal/server/dir_usage.go],
    [internal/server/disk_usage_*.go] and the quota middleware of
    [internal/server/server.go], with the properties of the specification
    stated over it.

    Go values are modelled as follows: [string] and [[]byte] values that are
    searched or spliced are [list ascii] (one [ascii] per byte), names and
    header values are [string], [uint64] is [Z] with the wrap-around written
    out, a [map[string]T] is a [gmap string T].  A Go function that mutates
    its receiver returns the new receiver; a function returning [(v, error)]
    returns a sum or a pair with an [option error].  Libraries outside the
    repository (bcrypt, encoding/json, path/filepath) are interfaces. *)

From Stdlib Require Import ZArith List String Ascii Lia DecimalString DecimalPos DecimalZ.
From stdpp Require Import gmap strings list fin_maps.

Local Open Scope Z_scope.

(* ===================================================================== *)
(** ** Go basics *)
(* ===================================================================== *)

(** Go [error] values that the code inspects or produces. *)
Inductive error :=
| ErrNotExist                 (* fs.ErrNotExist, ENOENT wrapped in a PathError *)
| ErrPermission               (* fs.ErrPermission, EACCES *)
| ErrMsg (msg : string).      (* errors.New / fmt.Errorf *)

(** [err.Error()] *)
Definition Error (e : error) : string :=
  match e with
  | ErrNotExist => "no such file or directory"
  | ErrPermission => "permission denied"
  | ErrMsg m => m
  end.

(** [os.IsNotExist(err)] *)
Definition os_IsNotExist (e : error) : bool :=
  match e with ErrNotExist => true | _ => false end.

Definition uint64_max : Z := 2 ^ 64.

(** Conversion to [uint64] and [uint64] arithmetic. *)
Definition to_uint64 (z : Z) : Z := z mod uint64_max.
Definition add64 (a b : Z) : Z := (a + b) mod uint64_max.
Definition sub64 (a b : Z) : Z := (a - b) mod uint64_max.
Definition mul64 (a b : Z) : Z := (a * b) mod uint64_max.

(** [strconv.Itoa] and the [%d] verb of [fmt]. *)
Definition Itoa (z : Z) : string := NilZero.string_of_int (Z.to_int z).

(** [[]byte(s)] *)
Definition bytes (s : string) : list ascii := list_ascii_of_string s.

(* ===================================================================== *)
(** ** Interfaces of the libraries outside the repository *)
(* ===================================================================== *)

(** golang.org/x/crypto/bcrypt.  [GenerateFromPassword] draws a salt from
    the system's random source: the draw is the [entropy] argument. *)
Class Bcrypt := {
  entropy : Type;
  bcrypt_GenerateFromPassword : entropy -> string -> Z -> error + string;
  bcrypt_CompareHashAndPassword : string -> string -> option error
}.

Definition bcrypt_DefaultCost : Z := 10.

(** path/filepath. *)
Class Filepath := {
  filepath_Dir : string -> string;
  filepath_Abs : string -> string * option error
}.

(* ===================================================================== *)
(** ** pkg/user *)
(* ===================================================================== *)

Module user.

(** [type User struct] *)
Record User := { Username : string; PasswordHash : string }.

(** [type Store struct].  The lock [mu] is not modelled: every operation
    below runs under it from its first to its last statement.  The values of
    [Users] are pointers to records that are written once, when they are
    created, and never shared: the map holds the records themselves.  (A
    nil pointer, which only a [null] in the file could put there, is not
    modelled.) *)
Record Store := { filePath : string; Users : gmap string User }.

(** encoding/json at the type [map[string]*User].  [json_Unmarshal data m]
    decodes into the existing map [m], as [json.Unmarshal(data, &m)]. *)
Class Json := {
  json_MarshalIndent : gmap string User -> error + list ascii;
  json_Unmarshal : list ascii -> gmap string User -> gmap string User * option error
}.

(** The files the store reads and writes.  [faults] are the paths on which
    the operating system refuses an operation. *)
Record FS := { files : gmap string (list ascii); faults : string -> option error }.

Definition os_ReadFile (fs : FS) (name : string) : error + list ascii :=
  match faults fs name with
  | Some e => inl e
  | None => match files fs !! name with
            | Some data => inr data
            | None => inl ErrNotExist
            end
  end.

Definition os_MkdirAll (fs : FS) (dir : string) : option error * FS :=
  (faults fs dir, fs).

Definition os_WriteFile (fs : FS) (name : string) (data : list ascii) : option error * FS :=
  match faults fs name with
  | Some e => (Some e, fs)
  | None => (None, {| files := <[name := data]> (files fs); faults := faults fs |})
  end.

(** [func (s *Store) load() error] *)
Definition load `{Json} (s : Store) (fs : FS) : option error * Store :=
  match os_ReadFile fs (filePath s) with
  | inl err => (Some err, s)
  | inr data =>
      let '(m, err) := json_Unmarshal data (Users s) in
      (err, {| filePath := filePath s; Users := m |})
  end.

(** [func NewStore(path string)], returning the store or an error. *)
Definition NewStore `{Json} (path : string) (fs : FS) : error + Store :=
  let s := {| filePath := path; Users := ∅ |} in
  match load s fs with
  | (Some err, s') => if os_IsNotExist err then inr s' else inl err
  | (None, s') => inr s'
  end.

(** [func (s *Store) Save() error] *)
Definition Save `{Json} `{Filepath} (s : Store) (fs : FS) : option error * FS :=
  match json_MarshalIndent (Users s) with
  | inl err => (Some err, fs)
  | inr data =>
      let dir := filepath_Dir (filePath s) in
      match os_MkdirAll fs dir with
      | (Some err, fs') => (Some err, fs')
      | (None, fs') => os_WriteFile fs' (filePath s) data
      end
  end.

(** [fmt.Errorf("user %s already exists", username)] *)
Definition errAlreadyExists (username : string) : error :=
  ErrMsg ("user " +:+ username +:+ " already exists").

(** [func (s *Store) Add(username, password string) error] *)
Definition Add `{Bcrypt} (rnd : entropy) (username password : string) (s : Store)
  : option error * Store :=
  match Users s !! username with
  | Some _ => (Some (errAlreadyExists username), s)
  | None =>
      match bcrypt_GenerateFromPassword rnd password bcrypt_DefaultCost with
      | inl err => (Some err, s)
      | inr hash =>
          (None, {| filePath := filePath s;
                    Users := <[username := {| Username := username;
                                              PasswordHash := hash |}]> (Users s) |})
      end
  end.

(** [func (s *Store) Delete(username string)] *)
Definition Delete (username : string) (s : Store) : Store :=
  {| filePath := filePath s; Users := delete username (Users s) |}.

(** [func (s *Store) Authenticate(username, password string) bool] *)
Definition Authenticate `{Bcrypt} (username password : string) (s : Store) : bool :=
  match Users s !! username with
  | None => false
  | Some u =>
      match bcrypt_CompareHashAndPassword (PasswordHash u) password with
      | None => true
      | Some _ => false
      end
  end.

(** The invariant of the in-memory mapping: a record is stored under its
    own user name. *)
Definition keyed (s : Store) : Prop :=
  ∀ u r, Users s !! u = Some r → Username r = u.

End user.

(* ===================================================================== *)
(** ** regexp: the fragment the server uses *)
(* ===================================================================== *)

(** Both expressions of [server.go] are a concatenation of literals and
    greedy repetitions of a character class, with one capture group.  An
    expression is the list of its pieces and, for each capture group, the
    range of pieces it spans.  The search is the backtracking one, which is
    what Go's leftmost-first matching is defined by. *)
Module regexp.

Inductive atom :=
| Lit (l : list ascii)            (* a literal string *)
| Star (cls : ascii -> bool)      (* [cls]* *)
| Plus (cls : ascii -> bool).     (* [cls]+ *)

Record Regexp := { atoms : list atom; groups : list (nat * nat) }.

(** [strings.CutPrefix]: the rest of [s] after the literal [l]. *)
Fixpoint cut_prefix (l s : list ascii) : option (list ascii) :=
  match l, s with
  | [], _ => Some s
  | a :: l', b :: s' => if Ascii.eqb a b then cut_prefix l' s' else None
  | _ :: _, [] => None
  end.

(** A greedy repetition: take one more character of the class if the rest
    of the expression [k] still matches afterwards, otherwise stop here. *)
Fixpoint greedy (cls : ascii -> bool) (k : list ascii -> option (list (list ascii)))
    (s : list ascii) : option (list ascii * list (list ascii)) :=
  match s with
  | c :: s' =>
      if cls c then
        match greedy cls k s' with
        | Some (w, r) => Some (c :: w, r)
        | None => option_map (pair []) (k s)
        end
      else option_map (pair []) (k s)
  | [] => option_map (pair []) (k [])
  end.

(** A match of the pieces [re] at the start of [s]: the text each piece
    consumed. *)
Fixpoint match_here (re : list atom) (s : list ascii) : option (list (list ascii)) :=
  match re with
  | [] => Some []
  | Lit l :: re' =>
      match cut_prefix l s with
      | Some s' => option_map (cons l) (match_here re' s')
      | None => None
      end
  | Star cls :: re' =>
      match greedy cls (match_here re') s with
      | Some (w, r) => Some (w :: r)
      | None => None
      end
  | Plus cls :: re' =>
      match s with
      | c :: s' =>
          if cls c then
            match greedy cls (match_here re') s' with
            | Some (w, r) => Some ((c :: w) :: r)
            | None => None
            end
          else None
      | [] => None
      end
  end.

(** The leftmost match: its offset (counted from [i]) and its pieces. *)
Fixpoint find_from (re : list atom) (s : list ascii) (i : nat)
  : option (nat * list (list ascii)) :=
  match match_here re s with
  | Some ps => Some (i, ps)
  | None => match s with
            | [] => None
            | _ :: s' => find_from re s' (S i)
            end
  end.

(** [re.FindStringIndex(s)]: [loc[0]] and [loc[1]], or [None] for nil. *)
Definition FindStringIndex (re : Regexp) (s : list ascii) : option (nat * nat) :=
  match find_from (atoms re) s 0 with
  | Some (i, ps) => Some (i, (i + length (concat ps))%nat)
  | None => None
  end.

(** [re.FindStringSubmatch(s)]: the match followed by the text of each
    group, or the empty (nil) slice. *)
Definition FindStringSubmatch (re : Regexp) (s : list ascii) : list (list ascii) :=
  match find_from (atoms re) s 0 with
  | Some (_, ps) =>
      concat ps :: map (fun g => concat (take (snd g - fst g) (drop (fst g) ps))) (groups re)
  | None => []
  end.

(** The texts a piece matches. *)
Definition accepts (a : atom) (w : list ascii) : Prop :=
  match a with
  | Lit l => w = l
  | Star cls => Forall (fun c => cls c = true) w
  | Plus cls => w <> [] /\ Forall (fun c => cls c = true) w
  end.

(** Does the expression match at offset [i] of [s]? *)
Definition matches_at (re : Regexp) (s : list ascii) (i : nat) : bool :=
  match match_here (atoms re) (drop i s) with Some _ => true | None => false end.

End regexp.

(* ===================================================================== *)
(** ** net/http: requests, headers and response writers *)
(* ===================================================================== *)

Module http.

Definition StatusOK : Z := 200.
Definition StatusMultiStatus : Z := 207.

(** The two fields of [*http.Request] the server reads. *)
Record Request := { Method : string; Path : string }.

(** [http.Header], keys in canonical form. *)
Abbreviation Header := (gmap string (list string)).

Definition Header_Get (h : Header) (key : string) : string :=
  match h !! key with
  | Some (v :: _) => v
  | _ => ""
  end.

Definition Header_Set (key value : string) (h : Header) : Header :=
  <[key := [value]]> h.

(** [http.ResponseWriter].  [Header()] returns a reference to the header
    map: reading it is [Header_], changing the map behind it is
    [updHeader]. *)
Class ResponseWriter (W : Type) := {
  Header_ : W -> Header;
  updHeader : (Header -> Header) -> W -> W;
  WriteHeader : Z -> W -> W;
  Write : list ascii -> W -> W
}.

(** The writer the HTTP server hands to the outermost handler.  The first
    [WriteHeader], or the first [Write] (with status 200), commits the status
    and the headers as they are at that moment; later changes of the header
    map and later [WriteHeader] calls do not reach the client.  [written] is
    the body sent. *)
Record response := {
  handlerHeader : Header;
  wroteHeader : option (Z * Header);
  written : list ascii
}.

Definition response_WriteHeader (code : Z) (w : response) : response :=
  match wroteHeader w with
  | Some _ => w
  | None => {| handlerHeader := handlerHeader w;
               wroteHeader := Some (code, handlerHeader w);
               written := written w |}
  end.

Definition response_Write (b : list ascii) (w : response) : response :=
  let w := response_WriteHeader StatusOK w in
  {| handlerHeader := handlerHeader w;
     wroteHeader := wroteHeader w;
     written := written w ++ b |}.

#[export] Instance response_ResponseWriter : ResponseWriter response := {
  Header_ := handlerHeader;
  updHeader f w := {| handlerHeader := f (handlerHeader w);
                      wroteHeader := wroteHeader w;
                      written := written w |};
  WriteHeader := response_WriteHeader;
  Write := response_Write
}.

(** A response on which nothing was written yet. *)
Definition newResponse (h : Header) : response :=
  {| handlerHeader := h; wroteHeader := None; written := [] |}.

(** What a handler does to the writer it is given. *)
Inductive call :=
| CallHeader (f : Header -> Header)     (* w.Header().Set / Add / Del *)
| CallWriteHeader (code : Z)            (* w.WriteHeader(code) *)
| CallWrite (b : list ascii).           (* w.Write(b) *)

Definition do_call {W} `{ResponseWriter W} (c : call) (w : W) : W :=
  match c with
  | CallHeader f => updHeader f w
  | CallWriteHeader code => WriteHeader code w
  | CallWrite b => Write b w
  end.

(** [http.Handler]: the calls it makes serving a request. *)
Definition Handler := Request -> list call.

(** [h.ServeHTTP(w, r)] *)
Definition ServeHTTP (h : Handler) {W} `{ResponseWriter W} (w : W) (r : Request) : W :=
  fold_left (fun w c => do_call c w) (h r) w.

End http.

(* ===================================================================== *)
(** ** internal/server *)
(* ===================================================================== *)

Module server.
Import regexp http.

(** *** The operating system under the data directory *)

(** A file tree as [filepath.WalkDir] meets it.  [File info] is an entry
    that is not a directory, with the result of [d.Info()]: an error or the
    size, an [int64].  [Dir entries rderr] is a directory with the result of
    [os.ReadDir]: the entries it could read and the error, if any. *)
#[warnings="-register-all"]
Inductive node :=
| File (info : error + Z)
| Dir (entries : list node) (rderr : option error).

(** [syscall.Statfs_t], the fields read. *)
Record Statfs_t := { Bavail : Z; Blocks : Z; Bsize : Z }.

Record OS := {
  GOOS_linux : bool;                              (* the build constraint *)
  os_Lstat : string -> error + node;
  syscall_Statfs : string -> error + Statfs_t
}.

(** *** path/filepath.WalkDir *)

(** The callback is a closure: [S] is the state of the variables it
    captured.  The entry handed to it is nil ([None]) only together with the
    error of the root's [Lstat].  The sentinel errors [SkipDir] and [SkipAll]
    are not values of [error]: a callback that returns nil or the error it
    was handed never returns them. *)
Section WalkDir.
Context {S : Type}.
Variable fn : option node -> option error -> S -> S * option error.

Fixpoint walkDir (d : node) (st : S) {struct d} : S * option error :=
  match fn (Some d) None st with
  | (st, Some err) => (st, Some err)
  | (st, None) =>
      match d with
      | File _ => (st, None)
      | Dir dirs rderr =>
          let '(st, err) :=
            match rderr with
            | Some err => fn (Some d) (Some err) st    (* second call, to report the ReadDir error *)
            | None => (st, None)
            end in
          match err with
          | Some err => (st, Some err)
          | None =>
              (fix walkEntries (dirs : list node) (st : S) : S * option error :=
                 match dirs with
                 | [] => (st, None)
                 | d1 :: dirs' =>
                     match walkDir d1 st with
                     | (st, Some err) => (st, Some err)
                     | (st, None) => walkEntries dirs' st
                     end
                 end) dirs st
          end
      end
  end.

Definition WalkDir (os : OS) (root : string) (st : S) : S * option error :=
  match os_Lstat os root with
  | inl err => fn None (Some err) st
  | inr info => walkDir info st
  end.
End WalkDir.

(** The loop of [walkDir] over the entries of a directory, on its own. *)
Fixpoint walkEntries {S} (fn : option node -> option error -> S -> S * option error)
    (dirs : list node) (st : S) : S * option error :=
  match dirs with
  | [] => (st, None)
  | d1 :: dirs' =>
      match walkDir fn d1 st with
      | (st, Some err) => (st, Some err)
      | (st, None) => walkEntries fn dirs' st
      end
  end.

(** *** dir_usage.go *)

(** The callback of [getDirUsedBytes]; its state is [total]. *)
Definition usageFn (d : option node) (err : option error) (total : Z) : Z * option error :=
  match err with
  | Some err => if os_IsNotExist err then (total, None) else (total, Some err)
  | None =>
      match d with
      | Some (Dir _ _) => (total, None)
      | Some (File (inl _)) => (total, None)
      | Some (File (inr size)) => (add64 total (to_uint64 size), None)
      | None => (total, None)
      end
  end.

(** [func getDirUsedBytes(dir string) (uint64, error)] *)
Definition getDirUsedBytes (os : OS) (dir : string) : Z * option error :=
  WalkDir usageFn os dir 0.

(** *** disk_usage: the Linux file and the stub of the other systems *)

(** [func getDiskUsage(path string) (uint64, uint64, error)] *)
Definition getDiskUsage (os : OS) (path : string) : Z * Z * option error :=
  if GOOS_linux os then
    match syscall_Statfs os path with
    | inl err => (0, 0, Some err)
    | inr stat =>
        let free := mul64 (Bavail stat) (to_uint64 (Bsize stat)) in
        let total := mul64 (Blocks stat) (to_uint64 (Bsize stat)) in
        let used := sub64 total free in
        (free, used, None)
    end
  else (100 * 1024 * 1024 * 1024, 0, None).

(** *** server.go *)

(** [type Server struct], the fields the quota middleware reads. *)
Record Server := { Addr : string; DataDir : string; QuotaBytes : Z }.

(** [type responseBuffer struct]: the embedded writer, whose header map it
    shares, the buffered body and the captured status. *)
Record responseBuffer (W : Type) := {
  ResponseWriter_ : W;
  body : list ascii;
  code : Z
}.
Arguments ResponseWriter_ {W} _.
Arguments body {W} _.
Arguments code {W} _.

#[export] Instance responseBuffer_ResponseWriter {W} `{ResponseWriter W}
  : ResponseWriter (responseBuffer W) := {
  Header_ w := Header_ (ResponseWriter_ w);
  updHeader f w := {| ResponseWriter_ := updHeader f (ResponseWriter_ w);
                      body := body w; code := code w |};
  WriteHeader c w := {| ResponseWriter_ := ResponseWriter_ w;
                        body := body w; code := c |};
  Write b w := {| ResponseWriter_ := ResponseWriter_ w;
                  body := body w ++ b; code := code w |}
}.

Definition is_alnum_ (c : ascii) : bool :=
  ((("a" <=? c) && (c <=? "z")) || (("A" <=? c) && (c <=? "Z"))
   || (("0" <=? c) && (c <=? "9")) || (c =? "_"))%char%bool.

(** The class [[a-zA-Z0-9_:]] *)
Definition tag_char (c : ascii) : bool := (is_alnum_ c || (c =? ":")%char)%bool.

(** The class [[a-zA-Z0-9_]] *)
Definition prefix_char (c : ascii) : bool := is_alnum_ c.

Definition quote : ascii := ascii_of_nat 34.

(** [regexp.MustCompile(`(</[a-zA-Z0-9_:]*prop>)`)] *)
Definition propEndRegex : Regexp :=
  {| atoms := [Lit (bytes "</"); Star tag_char; Lit (bytes "prop>")];
     groups := [(0, 3)%nat] |}.

(** The text [="DAV:"] *)
Definition eq_DAV : list ascii := bytes "=" ++ quote :: bytes "DAV:" ++ [quote].

(** [regexp.MustCompile(`xmlns:([a-zA-Z0-9_]+)="DAV:"`)] *)
Definition nsRegex : Regexp :=
  {| atoms := [Lit (bytes "xmlns:"); Plus prefix_char; Lit eq_DAV];
     groups := [(1, 2)%nat] |}.

(** Lines 176 to 194: the free and used bytes to report. *)
Definition diskUsage `{Filepath} (s : Server) (os : OS) : Z * Z * option error :=
  if 0 <? QuotaBytes s then
    let '(used, err) := getDirUsedBytes os (DataDir s) in
    match err with
    | None =>
        let used := if QuotaBytes s <? used then QuotaBytes s else used in
        let free := if used <=? QuotaBytes s then sub64 (QuotaBytes s) used else 0 in
        (free, used, None)
    | Some err => (0, used, Some err)
    end
  else
    let '(absPath, _) := filepath_Abs (DataDir s) in
    let absPath := if String.eqb absPath "" then DataDir s else absPath in
    getDiskUsage os absPath.

(** Lines 199 to 203: the prefix bound to the namespace [DAV:]. *)
Definition davPrefix (bodyStr : list ascii) : list ascii :=
  match FindStringSubmatch nsRegex bodyStr with
  | _ :: p :: _ => p
  | _ => bytes "D"
  end.

(** Lines 206 to 209, the [fmt.Sprintf]. *)
Definition quotaXML (prefix : list ascii) (free used : Z) : list ascii :=
  bytes "<" ++ prefix ++ bytes ":quota-available-bytes>" ++ bytes (Itoa free)
  ++ bytes "</" ++ prefix ++ bytes ":quota-available-bytes><" ++ prefix
  ++ bytes ":quota-used-bytes>" ++ bytes (Itoa used)
  ++ bytes "</" ++ prefix ++ bytes ":quota-used-bytes>".

(** Lines 197 to 218: the rewritten body when the usage is known. *)
Definition injectQuota (bodyStr : list ascii) (free used : Z) : list ascii :=
  let prefix := davPrefix bodyStr in
  let quotaXML := quotaXML prefix free used in
  match FindStringIndex propEndRegex bodyStr with
  | Some (start, _) => take start bodyStr ++ quotaXML ++ drop start bodyStr
  | None => bodyStr
  end.

(** [log.Printf("WebDAV Warning: failed to get disk usage: %v", err)] *)
Definition warnDiskUsage (err : error) : string :=
  "WebDAV Warning: failed to get disk usage: " +:+ Error err.

(** [func (s *Server) quotaMiddleware(next http.Handler) http.Handler]: the
    handler it returns, applied to [w] and [r]; the second component is what
    it wrote to the log. *)
Definition quotaMiddleware `{Filepath} (s : Server) (os : OS) (next : Handler)
    {W} `{ResponseWriter W} (w : W) (r : Request) : W * list string :=
  if (String.eqb (Method r) "PROPFIND" && String.eqb (Path r) "/")%bool then
    let rb := ServeHTTP next {| ResponseWriter_ := w; body := []; code := StatusOK |} r in
    let w := ResponseWriter_ rb in
    if negb (code rb =? StatusMultiStatus) then
      (Write (body rb) (WriteHeader (code rb) w), [])
    else
      let bodyBytes := body rb in
      let bodyStr := bodyBytes in
      let '(free, used, err) := diskUsage s os in
      let '(bodyBytes, logged) :=
        match err with
        | None => (injectQuota bodyStr free used, [])
        | Some err => (bodyBytes, [warnDiskUsage err])
        end in
      let w := updHeader (Header_Set "Content-Length"
                            (Itoa (Z.of_nat (length bodyBytes)))) w in
      let w := if String.eqb (Header_Get (Header_ w) "Content-Type") ""
               then updHeader (Header_Set "Content-Type" "text/xml; charset=utf-8") w
               else w in
      (Write bodyBytes (WriteHeader (code rb) w), logged)
  else
    (ServeHTTP next w r, []).

(** *** Notions used to state the properties *)

(** What the buffer holds when the inner handler returns: lines 146 to
    153 of [quotaMiddleware]. *)
Definition capture {W} `{ResponseWriter W} (next : Handler) (w : W) (r : Request)
  : responseBuffer W :=
  ServeHTTP next {| ResponseWriter_ := w; body := []; code := StatusOK |} r.

(** The bytes a handler writes, in order. *)
Definition bytes_written (cs : list call) : list ascii :=
  concat (map (fun c => match c with CallWrite b => b | _ => [] end) cs).

(** The status a handler asked for last, [dflt] if it never did. *)
Definition status_requested (dflt : Z) (cs : list call) : Z :=
  fold_left (fun st c => match c with CallWriteHeader x => x | _ => st end) cs dflt.

(** The header map after the changes a handler made to it. *)
Definition header_changes (cs : list call) (h : Header) : Header :=
  fold_left (fun h c => match c with CallHeader f => f h | _ => h end) cs h.

(** The local part of a qualified name: what follows its last colon. *)
Definition is_colon (c : ascii) : bool := (c =? ":")%char.

Fixpoint after_last_colon (acc q : list ascii) : list ascii :=
  match q with
  | [] => acc
  | c :: q' => if is_colon c then after_last_colon [] q'
               else after_last_colon (acc ++ [c]) q'
  end.

Definition local_name (q : list ascii) : list ascii := after_last_colon [] q.

(** At offset [i] of [body] starts a closing tag, written [</q>] with a
    qualified name [q] over letters, digits, [_] and [:], whose local name
    ends in [prop]. *)
Definition prop_close_at (body : list ascii) (i : nat) : Prop :=
  exists q rest,
    drop i body = bytes "</" ++ q ++ bytes ">" ++ rest /\
    Forall (fun c => tag_char c = true) q /\
    suffix (bytes "prop") (local_name q).

(** At offset [i] of [body] starts a declaration [xmlns:p="DAV:"] binding
    the prefix [p] to the namespace [DAV:]. *)
Definition ns_decl_at (body : list ascii) (i : nat) (p : list ascii) : Prop :=
  exists rest,
    drop i body = bytes "xmlns:" ++ p ++ eq_DAV ++ rest /\
    p <> [] /\
    Forall (fun c => prefix_char c = true) p.

(** The sizes of the entries of a tree that are not directories and whose
    [Info] succeeds, each converted to [uint64], summed without bound. *)
Fixpoint sum_sizes (d : node) : Z :=
  match d with
  | File (inr size) => to_uint64 size
  | File (inl _) => 0
  | Dir entries _ => fold_right Z.add 0 (map sum_sizes entries)
  end.

(** The errors of the [ReadDir] calls of a walk, in the order of the walk. *)
Fixpoint read_errors (d : node) : list error :=
  match d with
  | File _ => []
  | Dir entries rderr =>
      match rderr with Some e => [e] | None => [] end
      ++ concat (map read_errors entries)
  end.

(** An error the callback of [getDirUsedBytes] does not swallow. *)
Definition fatal (e : error) : bool := negb (os_IsNotExist e).

(** The first such error among the [ReadDir] errors of a walk. *)
Definition first_fatal (d : node) : option error :=
  head (List.filter fatal (read_errors d)).

End server.

(* ===================================================================== *)
(** ** Executable stand-ins for the libraries *)
(* ===================================================================== *)

(** Enough of bcrypt, encoding/json and path/filepath to run the store and
    the middleware on concrete inputs.  The properties below hold for every
    implementation of the interfaces; the stand-ins only serve the
    examples. *)
Module standin.
Import user.

Definition ErrPasswordTooLong : error :=
  ErrMsg "bcrypt: password length exceeds 72 bytes".

Definition ErrMismatchedHashAndPassword : error :=
  ErrMsg "crypto/bcrypt: hashedPassword is not the hash of the given password".

(** The hash is a tagged copy of the password.  Kept from bcrypt: passwords
    longer than 72 bytes are refused, and only the first 72 bytes of a
    password are compared. *)
Definition bcrypt72 : Bcrypt := {|
  entropy := unit;
  bcrypt_GenerateFromPassword _ password _ :=
    if (72 <? String.length password)%nat then inl ErrPasswordTooLong
    else inr ("$2a$10$" +:+ password);
  bcrypt_CompareHashAndPassword hash password :=
    if String.eqb hash
         ("$2a$10$" +:+ string_of_list_ascii (take 72 (bytes password)))
    then None else Some ErrMismatchedHashAndPassword
|}.

Definition slash : ascii := "/"%char.

Fixpoint drop_last_element (rev_path : list ascii) : option (list ascii) :=
  match rev_path with
  | [] => None
  | c :: l => if (c =? slash)%char then Some l else drop_last_element l
  end.

(** [Dir]: the path up to its last separator; [Abs]: the path itself. *)
Definition filepath_unix : Filepath := {|
  filepath_Dir path :=
    match drop_last_element (rev (bytes path)) with
    | None => "."
    | Some [] => "/"
    | Some l => string_of_list_ascii (rev l)
    end;
  filepath_Abs path := (path, None)
|}.

Definition nl : ascii := ascii_of_nat 10.
Definition dquote : ascii := ascii_of_nat 34.
Definition backslash : ascii := ascii_of_nat 92.

Fixpoint escape (l : list ascii) : list ascii :=
  match l with
  | [] => []
  | c :: l' =>
      if ((c =? dquote) || (c =? backslash))%char%bool
      then backslash :: c :: escape l'
      else c :: escape l'
  end.

(** The encoder appends to what follows, [k], as a buffer is filled from
    its end. *)
Definition put_string (s : string) (k : list ascii) : list ascii :=
  dquote :: escape (bytes s) ++ dquote :: k.

Definition indent (n : nat) (k : list ascii) : list ascii :=
  nl :: repeat " "%char n ++ k.

Definition put_user (u : User) (k : list ascii) : list ascii :=
  "{"%char
  :: indent 4 (put_string "username" (bytes ": " ++ put_string (Username u)
       (","%char
        :: indent 4 (put_string "password_hash" (bytes ": "
             ++ put_string (PasswordHash u) (indent 2 ("}"%char :: k))))))).

Fixpoint put_members (l : list (string * User)) (k : list ascii) : list ascii :=
  match l with
  | [] => k
  | (name, u) :: l' =>
      bytes "  " ++ put_string name (bytes ": " ++ put_user u
        (match l' with [] => [] | _ => bytes "," end ++ nl :: put_members l' k))
  end.

Definition marshal (m : gmap string User) : list ascii :=
  match map_to_list m with
  | [] => bytes "{}"
  | l => "{"%char :: nl :: put_members l (bytes "}")
  end.

Definition is_space (c : ascii) : bool :=
  ((c =? " ") || (c =? nl) || (c =? ascii_of_nat 9) || (c =? ascii_of_nat 13))%char%bool.

Fixpoint skip_space (l : list ascii) : list ascii :=
  match l with
  | c :: l' => if is_space c then skip_space l' else l
  | [] => []
  end.

Definition expect (ch : ascii) (l : list ascii) : option (list ascii) :=
  match skip_space l with
  | c :: l' => if (c =? ch)%char then Some l' else None
  | [] => None
  end.

Fixpoint parse_chars (l : list ascii) : option (list ascii * list ascii) :=
  match l with
  | [] => None
  | c :: l' =>
      if (c =? dquote)%char then Some ([], l')
      else if (c =? backslash)%char then
        match l' with
        | e :: l'' => '(s, r) ← parse_chars l''; Some (e :: s, r)
        | [] => None
        end
      else '(s, r) ← parse_chars l'; Some (c :: s, r)
  end.

Definition parse_string (l : list ascii) : option (string * list ascii) :=
  l ← expect dquote l; '(s, r) ← parse_chars l; Some (string_of_list_ascii s, r).

Fixpoint parse_members {A} (value : list ascii -> option (A * list ascii))
    (fuel : nat) (l : list ascii) : option (list (string * A) * list ascii) :=
  match fuel with
  | O => None
  | S fuel =>
      '(k, l) ← parse_string l;
      l ← expect ":" l;
      '(v, l) ← value l;
      match skip_space l with
      | c :: l' =>
          if (c =? ",")%char then
            '(ms, r) ← parse_members value fuel l'; Some ((k, v) :: ms, r)
          else if (c =? "}")%char then Some ([(k, v)], l')
          else None
      | [] => None
      end
  end.

Definition parse_object {A} (value : list ascii -> option (A * list ascii))
    (l : list ascii) : option (list (string * A) * list ascii) :=
  l ← expect "{" l;
  match expect "}" l with
  | Some r => Some ([], r)
  | None => parse_members value (length l) l
  end.

Definition field (name : string) (fields : list (string * string)) : string :=
  match list_find (fun kv => String.eqb (fst kv) name = true) (reverse fields) with
  | Some (_, (_, v)) => v
  | None => ""
  end.

Definition parse_user (l : list ascii) : option (User * list ascii) :=
  '(fields, r) ← parse_object parse_string l;
  Some ({| Username := field "username" fields;
           PasswordHash := field "password_hash" fields |}, r).

Definition unmarshal (data : list ascii) (m : gmap string User)
  : gmap string User * option error :=
  match parse_object parse_user data with
  | Some (members, rest) =>
      match skip_space rest with
      | [] => (fold_left (fun m kv => <[fst kv := snd kv]> m) members m, None)
      | _ :: _ => (m, Some (ErrMsg "invalid character after top-level value"))
      end
  | None => (m, Some (ErrMsg "unexpected end of JSON input"))
  end.

Definition json_plain : Json := {|
  json_MarshalIndent m := inr (marshal m);
  json_Unmarshal := unmarshal
|}.

(** A store with two users and a file system without faults. *)
Definition alice : User := {| Username := "alice"; PasswordHash := "$2a$10$wonderland" |}.
Definition carol : User := {| Username := "carol"; PasswordHash := "$2a$10$x" |}.

Definition store0 : Store := {| filePath := "/etc/atlas/users.json"; Users := ∅ |}.

Definition store2 : Store :=
  {| filePath := "/etc/atlas/users.json";
     Users := <["alice" := alice]> (<["carol" := carol]> ∅) |}.

Definition disk0 : FS := {| files := ∅; faults := fun _ => None |}.

(** A password of 73 bytes. *)
Definition long_password : string :=
  string_of_list_ascii (repeat "a"%char 73).

(** A data directory of 4 bytes in which one file vanished, and one of 12
    bytes with a directory that cannot be read. *)
Definition tree4 : server.node :=
  server.Dir [server.File (inr 3);
              server.Dir [server.File (inl ErrNotExist); server.File (inr 1)] None;
              server.Dir [] (Some ErrNotExist)] None.

Definition tree_denied : server.node :=
  server.Dir [server.File (inr 5);
              server.Dir [] (Some ErrPermission);
              server.File (inr 7)] None.

Definition os4 : server.OS :=
  {| server.GOOS_linux := true;
     server.os_Lstat := fun _ => inr tree4;
     server.syscall_Statfs := fun _ => inl ErrPermission |}.

Definition os_denied : server.OS :=
  {| server.GOOS_linux := true;
     server.os_Lstat := fun _ => inr tree_denied;
     server.syscall_Statfs := fun _ => inl ErrPermission |}.

Definition srv10 : server.Server :=
  {| server.Addr := ":8080"; server.DataDir := "/srv/data"; server.QuotaBytes := 10 |}.

Definition srv0 : server.Server :=
  {| server.Addr := ":8080"; server.DataDir := "/srv/data"; server.QuotaBytes := 0 |}.

(** A listing of the root as the WebDAV handler writes it, and one that
    binds the namespace to the prefix [x]. *)
Definition listing (prefix : string) : list ascii :=
  bytes ("<" +:+ prefix +:+ ":multistatus xmlns:" +:+ prefix +:+ "=")
  ++ dquote :: bytes "DAV:" ++ dquote
  :: bytes ("><" +:+ prefix +:+ ":response><" +:+ prefix +:+ ":href>/</"
            +:+ prefix +:+ ":href><" +:+ prefix +:+ ":propstat><" +:+ prefix
            +:+ ":prop><" +:+ prefix +:+ ":resourcetype/></" +:+ prefix
            +:+ ":prop></" +:+ prefix +:+ ":propstat></" +:+ prefix
            +:+ ":response></" +:+ prefix +:+ ":multistatus>").

Definition propfind_root : http.Request := {| http.Method := "PROPFIND"; http.Path := "/" |}.
Definition get_file : http.Request := {| http.Method := "GET"; http.Path := "/a.txt" |}.

Definition webdav : http.Handler := fun r =>
  if String.eqb (http.Method r) "PROPFIND" then
    [http.CallHeader (http.Header_Set "Content-Type" "text/xml; charset=utf-8");
     http.CallWriteHeader 207; http.CallWrite (listing "D")]
  else
    [http.CallWriteHeader 404; http.CallWrite (bytes "Not Found")].

Definition locked : http.Handler := fun _ =>
  [http.CallWriteHeader 423; http.CallWrite (bytes "Locked")].

End standin.

(* ===================================================================== *)
(** ** A JSON stand-in that treats invalid UTF-8 as encoding/json does *)
(* ===================================================================== *)

Module standin_utf8.
Import user standin.














End standin_utf8.

(* ===================================================================== *)
(** ** strings and strconv, on strings of ASCII bytes *)
(* ===================================================================== *)

(** The functions of [strings] and [strconv] that the command line uses.
    [TrimSpace], [ToUpper] and [ToLower] are given for strings whose bytes
    are all below 128, where they work byte by byte; the properties that
    depend on them assume such a string. *)
Module strings.

Definition is_ascii (s : list ascii) : Prop :=
  Forall (fun c => (nat_of_ascii c < 128)%nat) s.

(** The table [asciiSpace] of the package: tab, line feed, vertical tab,
    form feed, carriage return and space. *)
Definition asciiSpace (c : ascii) : bool :=
  let n := nat_of_ascii c in
  ((9 <=? n) && (n <=? 13) || (n =? 32))%nat%bool.

Fixpoint TrimLeft (s : list ascii) : list ascii :=
  match s with
  | c :: s' => if asciiSpace c then TrimLeft s' else s
  | [] => []
  end.

Definition TrimRight (s : list ascii) : list ascii := rev (TrimLeft (rev s)).

(** [strings.TrimSpace] *)
Definition TrimSpace (s : list ascii) : list ascii := TrimRight (TrimLeft s).

Definition upper (c : ascii) : ascii :=
  if (("a" <=? c) && (c <=? "z"))%char%bool
  then ascii_of_nat (nat_of_ascii c - 32) else c.

Definition lower (c : ascii) : ascii :=
  if (("A" <=? c) && (c <=? "Z"))%char%bool
  then ascii_of_nat (nat_of_ascii c + 32) else c.

(** [strings.ToUpper] and [strings.ToLower] *)
Definition ToUpper (s : list ascii) : list ascii := map upper s.
Definition ToLower (s : list ascii) : list ascii := map lower s.

(** [strings.HasSuffix]:
    [len(s) >= len(suffix) && s[len(s)-len(suffix):] == suffix] *)
Definition HasSuffix (s suffix : list ascii) : bool :=
  ((length suffix <=? length s)%nat
   && bool_decide (drop (length s - length suffix) s = suffix))%bool.

(** [s[:len(s)-1]] *)
Definition chop (s : list ascii) : list ascii := take (length s - 1) s.

End strings.

Module strconv.

Definition ErrSyntax : error := ErrMsg "invalid syntax".
Definition ErrRange : error := ErrMsg "value out of range".

Definition maxUint64 : Z := uint64_max - 1.

(** The value of a decimal digit. *)
Definition digit (c : ascii) : option Z :=
  if (("0" <=? c) && (c <=? "9"))%char%bool
  then Some (Z.of_nat (nat_of_ascii c) - 48) else None.

(** The loop of [ParseUint] in base 10 with 64 bits: a byte that is not a
    digit is a syntax error; [n >= cutoff], where [n * 10] would overflow,
    and a sum [n * 10 + d] that wraps around are range errors. *)
Fixpoint ParseUint_loop (s : list ascii) (n : Z) : error + Z :=
  match s with
  | [] => inr n
  | c :: s' =>
      match digit c with
      | None => inl ErrSyntax
      | Some d =>
          if maxUint64 / 10 + 1 <=? n then inl ErrRange
          else
            let n := mul64 n 10 in
            let n1 := add64 n d in
            if ((n1 <? n) || (maxUint64 <? n1))%bool then inl ErrRange
            else ParseUint_loop s' n1
      end
  end.

(** [strconv.ParseUint(s, 10, 64)] *)
Definition ParseUint (s : list ascii) : error + Z :=
  match s with
  | [] => inl ErrSyntax
  | _ :: _ => ParseUint_loop s 0
  end.

(** The number a string of decimal digits denotes, continuing from [n]. *)
Definition decimal_from (n : Z) (s : list ascii) : Z :=
  fold_left (fun a c => a * 10 + default 0 (digit c)) s n.

Definition decimal (s : list ascii) : Z := decimal_from 0 s.

Definition is_digit (c : ascii) : bool :=
  match digit c with Some _ => true | None => false end.

End strconv.

(* ===================================================================== *)
(** ** internal/cli *)
(* ===================================================================== *)

Module cli.
Import strings strconv.

(** [func parseQuotaBytes(s string) uint64] *)
Definition parseQuotaBytes (s : list ascii) : Z :=
  let s := TrimSpace s in
  match s with
  | [] => 0
  | _ :: _ =>
      let s := ToUpper s in
      let s :=
        if (HasSuffix s (bytes "B")
            && (HasSuffix s (bytes "GB") || HasSuffix s (bytes "MB")
                || HasSuffix s (bytes "KB")))%bool
        then chop s else s in
      let '(mult, s) :=
        if HasSuffix s (bytes "G") then (Z.shiftl 1 30, chop s)
        else if HasSuffix s (bytes "M") then (Z.shiftl 1 20, chop s)
        else if HasSuffix s (bytes "K") then (Z.shiftl 1 10, chop s)
        else (1, s) in
      match ParseUint (TrimSpace s) with
      | inl _ => 0
      | inr n => mul64 n mult
      end
  end.

(** The units [parseQuotaBytes] knows, in upper case, with their factor. *)
Definition unit_factor (u : list ascii) : option Z :=
  if bool_decide (u = []) then Some 1
  else if bool_decide (u = bytes "K" \/ u = bytes "KB") then Some (2 ^ 10)
  else if bool_decide (u = bytes "M" \/ u = bytes "MB") then Some (2 ^ 20)
  else if bool_decide (u = bytes "G" \/ u = bytes "GB") then Some (2 ^ 30)
  else None.

Definition blank (w : list ascii) : Prop := Forall (fun c => asciiSpace c = true) w.

Definition digits (s : list ascii) : Prop := Forall (fun c => is_digit c = true) s.

(** *** The user commands *)

(** [viper.GetString]: the configuration the process was started with. *)
Class Viper := { viper_GetString : string -> string }.

(** [filepath.Join] of two elements. *)
Class FilepathJoin := { filepath_Join : string -> string -> string }.

(** [fmt.Errorf(msg + ": %w", err)]: the error reads [msg: err]; it is not
    one that [os.IsNotExist] recognises. *)
Definition wrap (msg : string) (err : error) : error :=
  ErrMsg (msg +:+ ": " +:+ Error err).

Definition newline : string := String (ascii_of_nat 10) EmptyString.

(** [for k := range s.Users { keys = append(keys, k) }] of [Store.List].
    The language leaves the order of a [range] over a map open and visits
    each key once: [shuffle] is the order of this run, applied to the keys
    of the map. *)
Definition range_keys (shuffle : list string -> list string)
    (m : gmap string user.User) : list string :=
  shuffle (map_to_list m).*1.

(** [func (s *Store) List() []string] *)
Definition List (shuffle : list string -> list string) (s : user.Store) : list string :=
  fold_left (fun keys k => keys ++ [k]) (range_keys shuffle (user.Users s)) [].

Section Commands.
Import user.
Context `{!Bcrypt} `{!Json} `{!Filepath} `{!Viper} `{!FilepathJoin}.

(** [func getUserStore()], returning the store or an error, on the files
    [fs]. *)
Definition getUserStore (fs : FS) : error + Store :=
  let configDir := viper_GetString "config_dir" in
  let configDir := if String.eqb configDir "" then "." else configDir in
  let dbPath := filepath_Join configDir "users.json" in
  NewStore dbPath fs.

(** [RunE] of [userAddCmd] on the arguments [username] and [password]: the
    error it returns, the files it leaves and what it prints. *)
Definition userAdd (rnd : entropy) (username password : string) (fs : FS)
  : option error * FS * list string :=
  match getUserStore fs with
  | inl err => (Some err, fs, [])
  | inr store =>
      match Add rnd username password store with
      | (Some err, _) => (Some err, fs, [])
      | (None, store) =>
          match Save store fs with
          | (Some err, fs) => (Some (wrap "failed to save user" err), fs, [])
          | (None, fs) =>
              (None, fs, ["User " +:+ username +:+ " created successfully." +:+ newline])
          end
      end
  end.

(** [RunE] of [userRmCmd] on the argument [username]. *)
Definition userRm (username : string) (fs : FS) : option error * FS * list string :=
  match getUserStore fs with
  | inl err => (Some err, fs, [])
  | inr store =>
      let store := Delete username store in
      match Save store fs with
      | (Some err, fs) => (Some (wrap "failed to save changes" err), fs, [])
      | (None, fs) =>
          (None, fs, ["User " +:+ username +:+ " removed (if existed)." +:+ newline])
      end
  end.

(** [RunE] of [userLsCmd]. *)
Definition userLs (shuffle : list string -> list string) (fs : FS)
  : option error * list string :=
  match getUserStore fs with
  | inl err => (Some err, [])
  | inr store =>
      let users := List shuffle store in
      if (length users =? 0)%nat then (None, ["No users found." +:+ newline])
      else (None, ("Users:" +:+ newline)
                    :: map (fun u => "- " +:+ u +:+ newline) users)
  end.

(** [func New(addr, dataDir string, store *user.Store, quotaBytes uint64)],
    the fields of the server other than the store. *)
Definition New (addr dataDir : string) (quotaBytes : Z) : server.Server :=
  {| server.Addr := addr; server.DataDir := dataDir; server.QuotaBytes := quotaBytes |}.

(** [RunE] of [serverCmd], lines 25 to 56: the server it builds from the
    configuration and the store it loads, or the error it returns when the
    store does not load.  The messages it logs on the way are left out. *)
Definition serverSetup (fs : FS) : error + (server.Server * Store) :=
  let port := viper_GetString "port" in
  let port := if String.eqb port "" then "8080" else port in
  let addr := ":" +:+ port in
  let dataDir := viper_GetString "data_dir" in
  let dataDir := if String.eqb dataDir "" then "data" else dataDir in
  let '(absDataDir, _) := filepath_Abs dataDir in
  match getUserStore fs with
  | inl err => inl (wrap "failed to load user store" err)
  | inr store =>
      let quotaBytes := parseQuotaBytes (bytes (viper_GetString "quota")) in
      inr (New addr absDataDir quotaBytes, store)
  end.

End Commands.

End cli.

(* ===================================================================== *)
(** ** internal/server: the handler that [Start] installs *)
(* ===================================================================== *)

Module middleware.
Import user http server.

Definition StatusUnauthorized : Z := 401.

(** [filepath.Ext] where the separator is [/]: the suffix of the path from
    the last dot of its last element, empty when that element has no dot.
    The scan runs from the end of the path. *)
Fixpoint Ext_scan (rev_path acc : list ascii) : list ascii :=
  match rev_path with
  | [] => []
  | c :: l =>
      if (c =? "/")%char then []
      else if (c =? ".")%char then c :: acc
      else Ext_scan l (c :: acc)
  end.

Definition filepath_Ext (path : string) : string :=
  string_of_list_ascii (Ext_scan (rev (bytes path)) []).

(** [mime.TypeByExtension], which reads the tables of the system. *)
Class Mime := { mime_TypeByExtension : string -> string }.

(** [r.BasicAuth()]: the user name and password of the request's
    [Authorization] header, when it has one of the Basic scheme. *)
Class Credentials := { BasicAuth : Request -> option (string * string) }.

(** [http.Error(w, error, code)], as of Go 1.23 (the image is built with Go
    1.24): it drops [Content-Length], sets the two headers, writes the
    status and prints the message with a line feed. *)
Definition http_Error {W} `{ResponseWriter W} (w : W) (error : string) (code : Z) : W :=
  let w := updHeader (delete "Content-Length") w in
  let w := updHeader (Header_Set "Content-Type" "text/plain; charset=utf-8") w in
  let w := updHeader (Header_Set "X-Content-Type-Options" "nosniff") w in
  let w := WriteHeader code w in
  Write (bytes error ++ [ascii_of_nat 10]) w.

(** The value [Basic realm=...] of the challenge, the realm in quotes. *)
Definition challenge : string :=
  "Basic realm=" +:+ String quote ("Atlas Storage" +:+ String quote EmptyString).

(** [w.Header().Set("WWW-Authenticate", ...)]: the key in the canonical
    form under which [Set] stores it. *)
Definition setChallenge {W} `{ResponseWriter W} (w : W) : W :=
  updHeader (Header_Set "Www-Authenticate" challenge) w.

(** A handler as a middleware returns it: applied to the writer and the
    request, it gives the writer and what it wrote to the log. *)
Definition Served (W : Type) : Type := W -> Request -> W * list string.

(** [func (s *Server) authMiddleware(next http.Handler) http.Handler];
    [store] is the field [UserStore] of the server. *)
Definition authMiddleware `{Bcrypt} `{Credentials} (store : Store)
    {W} `{ResponseWriter W} (next : Served W) : Served W :=
  fun w r =>
    match BasicAuth r with
    | None => (http_Error (setChallenge w) "Unauthorized" StatusUnauthorized, [])
    | Some (username, password) =>
        if negb (Authenticate username password store) then
          (http_Error (setChallenge w) "Unauthorized" StatusUnauthorized,
           ["Auth failed for user: " +:+ username])
        else next w r
    end.

(** [func (s *Server) mimeMiddleware(next http.Handler) http.Handler] *)
Definition mimeMiddleware `{Mime} {W} `{ResponseWriter W} (next : Served W) : Served W :=
  fun w r =>
    let ext := filepath_Ext (Path r) in
    let t := mime_TypeByExtension ext in
    let w := if negb (String.eqb t "") then updHeader (Header_Set "Content-Type" t) w
             else w in
    next w r.

(** Line 68 of [Start]: the chain Auth, MimeFix, Quota, WebDAV. *)
Definition handler `{Bcrypt} `{Credentials} `{Mime} `{Filepath}
    (s : Server) (store : Store) (os : OS) (webdavHandler : Handler)
    {W} `{ResponseWriter W} : Served W :=
  authMiddleware store (mimeMiddleware (quotaMiddleware s os webdavHandler)).

(** What the HTTP server does when the handler returns: a response on
    which nothing was written is sent with status 200. *)
Definition finishRequest (w : response) : response := response_WriteHeader StatusOK w.

(** The calls of a handler that sets its headers first, then the status,
    if it sets one, and then writes the body. *)
Definition orderly (fs : list (Header -> Header)) (status : option Z)
    (chunks : list (list ascii)) : list call :=
  map CallHeader fs
  ++ match status with Some c => [CallWriteHeader c] | None => [] end
  ++ map CallWrite chunks.

(** The [Logger] of the WebDAV handler, lines 51 to 64 of [Start]: what it
    writes to the log.  [filepath.Base] where the separator is [/]. *)
Fixpoint strip_slashes (rev_path : list ascii) : list ascii :=
  match rev_path with
  | c :: l => if (c =? "/")%char then strip_slashes l else rev_path
  | [] => []
  end.

Fixpoint last_element (rev_path acc : list ascii) : list ascii :=
  match rev_path with
  | [] => acc
  | c :: l => if (c =? "/")%char then acc else last_element l (c :: acc)
  end.

Definition filepath_Base (path : list ascii) : list ascii :=
  match path with
  | [] => bytes "."
  | _ :: _ =>
      match last_element (strip_slashes (rev path)) [] with
      | [] => bytes "/"
      | e => e
      end
  end.

Definition noise : list (list ascii) :=
  [bytes "desktop.ini"; bytes "autorun.inf"; bytes "thumbs.db"; bytes "folder.jpg"].

Definition Logger (r : Request) (err : option error) : list string :=
  match err with
  | None => []
  | Some err =>
      if (os_IsNotExist err
          && bool_decide (strings.ToLower (filepath_Base (bytes (Path r))) ∈ noise))%bool
      then []
      else ["WebDAV Error: " +:+ Method r +:+ " " +:+ Path r +:+ ": " +:+ Error err]
  end.

End middleware.

(* ===================================================================== *)
(** ** Stand-ins for the configuration and the request's credentials *)
(* ===================================================================== *)

Module standin_cli.

(** A configuration that sets the directories and a quota of one
    kilobyte, and leaves the port to its default. *)
Definition viper_etc : cli.Viper := {|
  cli.viper_GetString key :=
    if String.eqb key "config_dir" then "/etc/atlas"
    else if String.eqb key "data_dir" then "/srv/data"
    else if String.eqb key "quota" then "1k"
    else ""
|}.

Definition join_unix : cli.FilepathJoin := {|
  cli.filepath_Join dir name := dir +:+ "/" +:+ name
|}.

(** The files after [alice] and [carol] were saved. *)
Definition disk2 : user.FS :=
  (@user.Save standin.json_plain standin.filepath_unix standin.store2 standin.disk0).2.

(** Every request carries the credentials [c]. *)
Definition carrying (c : option (string * string)) : middleware.Credentials := {|
  middleware.BasicAuth _ := c
|}.

(** The types of two extensions. *)
Definition mime_table : middleware.Mime := {|
  middleware.mime_TypeByExtension ext :=
    if String.eqb ext ".txt" then "text/plain; charset=utf-8"
    else if String.eqb ext ".png" then "image/png"
    else ""
|}.

End standin_cli.

(* ===================================================================== *)
(** ** Properties of the credential store *)
(* ===================================================================== *)

Section CredentialStore.
Import user.
Context `{!Bcrypt}.

Lemma Authenticate_absent (u q : string) (s : Store) :
  Users s !! u = None -> Authenticate u q s = false.
Proof. intros Hu. unfold Authenticate. now rewrite Hu. Qed.

Lemma Authenticate_present (u q : string) (s : Store) (r : User) :
  Users s !! u = Some r ->
  Authenticate u q s =
    match bcrypt_CompareHashAndPassword (PasswordHash r) q with
    | None => true
    | Some _ => false
    end.
Proof. intros Hu. unfold Authenticate. now rewrite Hu. Qed.

Lemma Add_fresh (rnd : entropy) (u p hash : string) (s : Store) :
  Users s !! u = None ->
  bcrypt_GenerateFromPassword rnd p bcrypt_DefaultCost = inr hash ->
  Add rnd u p s =
    (None, {| filePath := filePath s;
              Users := <[u := {| Username := u; PasswordHash := hash |}]> (Users s) |}).
Proof. intros Hu Hgen. unfold Add. now rewrite Hu, Hgen. Qed.

Lemma Add_error_keeps_store (rnd : entropy) (u p : string) (s s' : Store) (e : error) :
  Add rnd u p s = (Some e, s') -> s' = s.
Proof.
  unfold Add. destruct (Users s !! u) as [r|].
  - now intros [= _ <-].
  - destruct (bcrypt_GenerateFromPassword rnd p bcrypt_DefaultCost) as [err|hash].
    + now intros [= _ <-].
    + discriminate.
Qed.

(** C7, as amended.  For a user name [u] that is not in the store and a
    password [p] whose hash generation succeeds with [hash], [Add u p]
    succeeds; in the store it leaves, [Authenticate u] answers what the hash
    comparison against [hash] answers, so it accepts [p] and refuses [p]
    followed by [x] when the comparison does; and [Authenticate] answers
    false for every user name that is not in a store. *)
Theorem Add_then_Authenticate (rnd : entropy) (u p hash : string) (s : Store) :
  Users s !! u = None ->
  bcrypt_GenerateFromPassword rnd p bcrypt_DefaultCost = inr hash ->
  bcrypt_CompareHashAndPassword hash p = None ->
  bcrypt_CompareHashAndPassword hash (p +:+ "x") <> None ->
  exists s',
    Add rnd u p s = (None, s') /\
    Authenticate u p s' = true /\
    Authenticate u (p +:+ "x") s' = false /\
    (forall q, Authenticate u q s' = true <-> bcrypt_CompareHashAndPassword hash q = None) /\
    (forall (t : Store) (v q : string), Users t !! v = None -> Authenticate v q t = false).
Proof.
  intros Hu Hgen Hok Hrej.
  eexists. split; [apply (Add_fresh rnd u p hash s Hu Hgen)|].
  set (r := {| Username := u; PasswordHash := hash |}).
  assert (Hget : forall q,
    Authenticate u q {| filePath := filePath s; Users := <[u := r]> (Users s) |} =
    match bcrypt_CompareHashAndPassword hash q with None => true | Some _ => false end).
  { intros q. apply (Authenticate_present u q _ r). cbn. apply lookup_insert_eq. }
  repeat split.
  - now rewrite Hget, Hok.
  - rewrite Hget. destruct (bcrypt_CompareHashAndPassword hash (p +:+ "x")); congruence.
  - rewrite Hget. destruct (bcrypt_CompareHashAndPassword hash q); congruence.
  - intros Hq. now rewrite Hget, Hq.
  - intros t v q. apply Authenticate_absent.
Qed.

(** C8.  [Add] on a user name that is in the store returns the error
    "already exists" and the store as it was; when the hash generation
    fails, [Add] returns its error and the store as it was; and whenever
    [Add] returns an error the store is the one it was given. *)
Theorem Add_failure_leaves_store (rnd : entropy) (u p : string) (s : Store) :
  (is_Some (Users s !! u) -> Add rnd u p s = (Some (errAlreadyExists u), s)) /\
  (forall err, Users s !! u = None ->
     bcrypt_GenerateFromPassword rnd p bcrypt_DefaultCost = inl err ->
     Add rnd u p s = (Some err, s)) /\
  (forall e s', Add rnd u p s = (Some e, s') ->
     s' = s /\ forall v, Users s' !! v = Users s !! v).
Proof.
  split; [|split].
  - intros [r Hr]. unfold Add. now rewrite Hr.
  - intros err Hu Hgen. unfold Add. now rewrite Hu, Hgen.
  - intros e s' HAdd. apply Add_error_keeps_store in HAdd. now subst.
Qed.

Lemma keyed_empty (path : string) : keyed {| filePath := path; Users := ∅ |}.
Proof. intros u r Hr. cbn in Hr. now rewrite lookup_empty in Hr. Qed.

Lemma keyed_Add (rnd : entropy) (u p : string) (s : Store) :
  keyed s -> keyed (Add rnd u p s).2.
Proof.
  intros Hs. unfold Add. destruct (Users s !! u) as [r|] eqn:Hu; [exact Hs|].
  destruct (bcrypt_GenerateFromPassword rnd p bcrypt_DefaultCost) as [err|hash];
    [exact Hs|].
  intros v r. cbn. rewrite lookup_insert. case_decide as Hv.
  - intros [= <-]. now subst.
  - apply Hs.
Qed.

Lemma keyed_Delete (u : string) (s : Store) : keyed s -> keyed (Delete u s).
Proof.
  intros Hs v r. cbn. rewrite lookup_delete. case_decide; [discriminate|apply Hs].
Qed.

End CredentialStore.

Section Persistence.
Import user.
Context `{!Json} `{!Filepath}.

Lemma NewStore_missing_file (path : string) (fs : FS) :
  os_ReadFile fs path = inl ErrNotExist ->
  NewStore path fs = inr {| filePath := path; Users := ∅ |}.
Proof. intros Hrd. unfold NewStore, load. cbn. now rewrite Hrd. Qed.

Lemma ReadFile_after_WriteFile (fs fs' : FS) (name : string) (data : list ascii) :
  os_WriteFile fs name data = (None, fs') -> os_ReadFile fs' name = inr data.
Proof.
  unfold os_WriteFile, os_ReadFile. destruct (faults fs name) eqn:Hf; [discriminate|].
  intros [= <-]. cbn. now rewrite Hf, lookup_insert_eq.
Qed.

Lemma Save_writes (s : Store) (fs fs' : FS) :
  Save s fs = (None, fs') ->
  exists data, json_MarshalIndent (Users s) = inr data /\
               os_ReadFile fs' (filePath s) = inr data.
Proof.
  unfold Save. destruct (json_MarshalIndent (Users s)) as [err|data]; [discriminate|].
  unfold os_MkdirAll. destruct (faults fs (filepath_Dir (filePath s))); [discriminate|].
  intros Hw. exists data. split; [reflexivity|]. eapply ReadFile_after_WriteFile, Hw.
Qed.

Lemma NewStore_reads_saved (s : Store) (fs fs' : FS) :
  Save s fs = (None, fs') ->
  (forall data, json_MarshalIndent (Users s) = inr data ->
                json_Unmarshal data ∅ = (Users s, None)) ->
  NewStore (filePath s) fs' = inr {| filePath := filePath s; Users := Users s |}.
Proof.
  intros HSave Hcodec. destruct (Save_writes s fs fs' HSave) as (data & Hm & Hrd).
  unfold NewStore, load. cbn. rewrite Hrd. now rewrite (Hcodec data Hm).
Qed.


End Persistence.

(* ===================================================================== *)
(** ** The JSON stand-in decodes what it encodes *)
(* ===================================================================== *)

Section JsonStandin.
Import user standin.

Lemma parse_chars_escape (l k : list ascii) :
  parse_chars (escape l ++ dquote :: k) = Some (l, k).
Proof.
  induction l as [|c l IH]; cbn [escape app].
  - reflexivity.
  - destruct ((c =? dquote)%char || (c =? backslash)%char)%bool eqn:Hc.
    + cbn [app parse_chars]. change (backslash =? dquote)%char with false.
      change (backslash =? backslash)%char with true. cbn iota.
      rewrite IH. reflexivity.
    + apply orb_false_iff in Hc as [Hq Hb]. cbn [app parse_chars].
      rewrite Hq, Hb, IH. reflexivity.
Qed.

Lemma skip_space_spaces (w l : list ascii) :
  forallb is_space w = true -> skip_space (w ++ l) = skip_space l.
Proof.
  induction w as [|c w IH]; cbn; [reflexivity|].
  intros [Hc Hw]%andb_true_iff. rewrite Hc. now apply IH.
Qed.

Lemma skip_space_char (c : ascii) (l : list ascii) :
  is_space c = false -> skip_space (c :: l) = c :: l.
Proof. intros Hc. cbn. now rewrite Hc. Qed.

Lemma expect_spaces (ch : ascii) (w l : list ascii) :
  forallb is_space w = true -> is_space ch = false ->
  expect ch (w ++ ch :: l) = Some l.
Proof.
  intros Hw Hch. unfold expect.
  rewrite skip_space_spaces, skip_space_char by assumption.
  now rewrite Ascii.eqb_refl.
Qed.

Lemma expect_here (ch : ascii) (l : list ascii) :
  is_space ch = false -> expect ch (ch :: l) = Some l.
Proof. apply (expect_spaces ch []). reflexivity. Qed.

Lemma expect_put_string (ch : ascii) (w : list ascii) (s : string) (k : list ascii) :
  forallb is_space w = true -> (dquote =? ch)%char = false ->
  expect ch (w ++ put_string s k) = None.
Proof.
  intros Hw Hch. unfold expect, put_string.
  rewrite skip_space_spaces, skip_space_char by (assumption || reflexivity).
  now rewrite Hch.
Qed.

Lemma parse_string_put (w : list ascii) (s : string) (k : list ascii) :
  forallb is_space w = true ->
  parse_string (w ++ put_string s k) = Some (s, k).
Proof.
  intros Hw. unfold parse_string, put_string.
  rewrite expect_spaces by (assumption || reflexivity). cbn [mbind option_bind].
  rewrite parse_chars_escape. cbn.
  unfold bytes. now rewrite string_of_list_ascii_of_string.
Qed.

Lemma parse_string_put1 (c : ascii) (s : string) (k : list ascii) :
  is_space c = true -> parse_string (c :: put_string s k) = Some (s, k).
Proof.
  intros Hc. apply (parse_string_put [c]). cbn. now rewrite Hc.
Qed.

Lemma spaces_indent (n : nat) : forallb is_space (nl :: repeat " "%char n) = true.
Proof. cbn. induction n as [|n IH]; [reflexivity|exact IH]. Qed.

Lemma indent_app (n : nat) (k : list ascii) :
  indent n k = (nl :: repeat " "%char n) ++ k.
Proof. reflexivity. Qed.

Lemma parse_fields (fuel : nat) (name hash : string) (k : list ascii) :
  parse_members parse_string (S (S fuel))
    (indent 4 (put_string "username" (bytes ": " ++ put_string name
       (","%char
        :: indent 4 (put_string "password_hash" (bytes ": "
             ++ put_string hash (indent 2 ("}"%char :: k))))))))
  = Some ([("username", name); ("password_hash", hash)], k).
Proof.
  cbn [parse_members].
  rewrite indent_app, parse_string_put by apply spaces_indent.
  cbn [mbind option_bind bytes list_ascii_of_string app].
  rewrite expect_here by reflexivity. cbn [mbind option_bind].
  rewrite parse_string_put1 by reflexivity. cbn [mbind option_bind].
  rewrite skip_space_char by reflexivity.
  change (","%char =? ",")%char with true. cbn iota.
  rewrite indent_app, parse_string_put by apply spaces_indent.
  cbn [mbind option_bind].
  rewrite expect_here by reflexivity. cbn [mbind option_bind].
  rewrite parse_string_put1 by reflexivity. cbn [mbind option_bind].
  rewrite indent_app, skip_space_spaces by apply spaces_indent.
  rewrite skip_space_char by reflexivity. reflexivity.
Qed.

Lemma parse_user_put (w : list ascii) (u : User) (k : list ascii) :
  forallb is_space w = true ->
  parse_user (w ++ put_user u k) = Some (u, k).
Proof.
  intros Hw. unfold parse_user, parse_object, put_user.
  rewrite expect_spaces by (assumption || reflexivity). cbn [mbind option_bind].
  set (fields := indent 4 _).
  assert (Hnone : expect "}" fields = None).
  { subst fields. rewrite indent_app.
    apply expect_put_string; [apply spaces_indent|reflexivity]. }
  assert (Hlen : length fields = S (S (length fields - 2))).
  { subst fields. cbn [indent repeat app length]. lia. }
  rewrite Hnone, Hlen. subst fields. rewrite parse_fields. cbn. now destruct u.
Qed.

Lemma parse_user_put1 (c : ascii) (u : User) (k : list ascii) :
  is_space c = true -> parse_user (c :: put_user u k) = Some (u, k).
Proof.
  intros Hc. apply (parse_user_put [c]). cbn. now rewrite Hc.
Qed.

Lemma parse_members_put (l : list (string * User)) (fuel : nat) (w k : list ascii) :
  l <> [] -> (length l <= fuel)%nat -> forallb is_space w = true ->
  parse_members parse_user fuel (w ++ put_members l ("}"%char :: k)) = Some (l, k).
Proof.
  revert fuel w. induction l as [|[name u] l IH]; intros fuel w Hne Hfuel Hw;
    [congruence|].
  destruct fuel as [|fuel]; [cbn in Hfuel; lia|].
  cbn [parse_members put_members]. rewrite app_assoc.
  rewrite parse_string_put by (rewrite forallb_app, Hw; reflexivity).
  cbn [mbind option_bind bytes list_ascii_of_string app].
  rewrite expect_here by reflexivity. cbn [mbind option_bind].
  rewrite parse_user_put1 by reflexivity. cbn [mbind option_bind].
  destruct l as [|kv l].
  - cbn [app put_members]. change (skip_space (nl :: "}"%char :: k)) with ("}"%char :: k).
    reflexivity.
  - cbn [app]. rewrite skip_space_char by reflexivity.
    change (","%char =? ",")%char with true. cbn iota.
    assert (HIH := IH fuel [nl]). cbn [app] in HIH.
    rewrite HIH; [reflexivity|discriminate| |reflexivity].
    cbn [length] in *. lia.
Qed.

Lemma length_put_members (l : list (string * User)) (k : list ascii) :
  (length l <= length (put_members l k))%nat.
Proof.
  induction l as [|[name u] l IH]; cbn [put_members length]; [lia|].
  unfold put_user, put_string, indent.
  repeat (cbn [length bytes list_ascii_of_string app] || rewrite length_app). lia.
Qed.

Lemma fold_insert_map_to_list (m : gmap string User) :
  fold_left (fun m kv => <[kv.1 := kv.2]> m) (map_to_list m) ∅ = m.
Proof.
  rewrite <- fold_left_rev_right.
  change (list_to_map (rev (map_to_list m)) = m).
  rewrite <- (list_to_map_to_list m) at 2.
  apply list_to_map_proper.
  - rewrite <- Permutation_rev. apply NoDup_fst_map_to_list.
  - symmetry. apply Permutation_rev.
Qed.

(** The stand-in decodes what it encoded, for every mapping. *)
Lemma unmarshal_marshal (m : gmap string User) :
  unmarshal (marshal m) ∅ = (m, None).
Proof.
  unfold unmarshal, marshal.
  destruct (map_to_list m) as [|kv l] eqn:Hl.
  - apply map_to_list_empty_iff in Hl as ->. reflexivity.
  - unfold parse_object. rewrite expect_here by reflexivity. cbn [mbind option_bind].
    assert (Hnone : expect "}" (nl :: put_members (kv :: l) (bytes "}")) = None).
    { destruct kv as [name u]. cbn [put_members].
      apply (expect_put_string "}" (nl :: bytes "  ")); reflexivity. }
    rewrite Hnone.
    assert (Hparse := parse_members_put (kv :: l)
                        (length (nl :: put_members (kv :: l) (bytes "}"))) [nl] []).
    cbn [app] in Hparse. change ["}"%char] with (bytes "}") in Hparse.
    rewrite Hparse; [|discriminate| |reflexivity].
    + cbn [skip_space]. rewrite <- Hl. now rewrite fold_insert_map_to_list.
    + cbn [length]. pose proof (length_put_members l (bytes "}")).
      pose proof (length_put_members (kv :: l) (bytes "}")). cbn [length] in *. lia.
Qed.

(** With the stand-in, [Save] and then [NewStore] give back every store. *)
Corollary standin_Save_then_NewStore `{!Filepath} (s : Store) (fs fs' : FS) :
  @Save json_plain _ s fs = (None, fs') ->
  @NewStore json_plain (filePath s) fs' = inr s.
Proof.
  intros HSave. rewrite (@NewStore_reads_saved json_plain _ s fs fs' HSave).
  - now destruct s.
  - intros data Hdata. apply (inj inr) in Hdata as <-. apply unmarshal_marshal.
Qed.

End JsonStandin.

(** C10.  A record is stored under its own user name in the empty store
    that [NewStore] creates when there is no file, and [Add] and [Delete]
    keep it so. *)
Theorem keyed_invariant `{!Bcrypt} `{!user.Json} :
  (forall path fs, user.os_ReadFile fs path = inl ErrNotExist ->
     exists s, user.NewStore path fs = inr s /\ user.Users s = ∅ /\ user.keyed s) /\
  (forall rnd u p s, user.keyed s -> user.keyed (user.Add rnd u p s).2) /\
  (forall u s, user.keyed s -> user.keyed (user.Delete u s)).
Proof.
  split; [|split].
  - intros path fs Hrd. eexists. split; [apply NewStore_missing_file, Hrd|].
    split; [reflexivity|apply keyed_empty].
  - intros rnd u p s. apply keyed_Add.
  - intros u s. apply keyed_Delete.
Qed.

Lemma Add_then_Authenticate_witness :
  exists s',
    @user.Add standin.bcrypt72 tt "bob" "secret" standin.store0 = (None, s') /\
    @user.Authenticate standin.bcrypt72 "bob" "secret" s' = true /\
    @user.Authenticate standin.bcrypt72 "bob" "secretx" s' = false.
Proof.
  destruct (@Add_then_Authenticate standin.bcrypt72 tt "bob" "secret"
              "$2a$10$secret" standin.store0) as (s' & HAdd & Hp & Hpx & _).
  - reflexivity.
  - reflexivity.
  - reflexivity.
  - vm_compute. discriminate.
  - exists s'. repeat split; assumption.
Defined.

(** C7 as stated fails: for a user name that is not in the store and a
    password of 73 bytes the hash generation fails, and [Add] returns its
    error. *)
Lemma Add_refuses_long_password :
  user.Users standin.store0 !! "bob" = None /\
  @user.Add standin.bcrypt72 tt "bob" standin.long_password standin.store0
    = (Some standin.ErrPasswordTooLong, standin.store0).
Proof. split; reflexivity. Qed.

(** A password of 72 bytes is accepted, and then so is every password that
    starts with it: only 72 bytes enter the hash. *)
Example Authenticate_ignores_byte_73 :
  let p := string_of_list_ascii (repeat "a"%char 72) in
  exists s',
    @user.Add standin.bcrypt72 tt "bob" p standin.store0 = (None, s') /\
    @user.Authenticate standin.bcrypt72 "bob" (p +:+ "x") s' = true.
Proof. eexists. split; vm_compute; reflexivity. Qed.

Lemma Add_failure_leaves_store_witness :
  @user.Add standin.bcrypt72 tt "alice" "pw" standin.store2
    = (Some (user.errAlreadyExists "alice"), standin.store2) /\
  @user.Add standin.bcrypt72 tt "bob" standin.long_password standin.store2
    = (Some standin.ErrPasswordTooLong, standin.store2).
Proof.
  split.
  - apply (proj1 (@Add_failure_leaves_store standin.bcrypt72 tt "alice" "pw"
                    standin.store2)).
    exists standin.alice. vm_compute. reflexivity.
  - apply (proj1 (proj2 (@Add_failure_leaves_store standin.bcrypt72 tt "bob"
                           standin.long_password standin.store2)));
      vm_compute; reflexivity.
Defined.



Lemma keyed_invariant_witness :
  user.keyed (user.Delete "alice"
                (@user.Add standin.bcrypt72 tt "bob" "secret" standin.store0).2).
Proof.
  destruct (@keyed_invariant standin.bcrypt72 standin.json_plain) as (Hnew & HAdd & HDel).
  apply HDel, HAdd.
  destruct (Hnew "/etc/atlas/users.json" standin.disk0) as (s & Hs & _ & Hk).
  - reflexivity.
  - injection Hs as <-. exact Hk.
Defined.

(* ===================================================================== *)
(** ** The regular-expression search *)
(* ===================================================================== *)

Section Regexp.
Import regexp.

Lemma cut_prefix_Some (l s s' : list ascii) :
  cut_prefix l s = Some s' <-> s = l ++ s'.
Proof.
  revert s. induction l as [|a l IH]; intros s; cbn.
  - split; congruence.
  - destruct s as [|b s]; [split; discriminate|].
    destruct (Ascii.eqb_spec a b) as [->|Hab].
    + rewrite IH. split; congruence.
    + split; [discriminate|]. intros [= -> _]. congruence.
Qed.

Lemma greedy_sound (cls : ascii -> bool) k (s w : list ascii) r :
  greedy cls k s = Some (w, r) ->
  Forall (fun c => cls c = true) w /\ exists s', s = w ++ s' /\ k s' = Some r.
Proof.
  assert (Hstop : forall t, option_map (pair []) (k t) = Some (w, r) ->
            Forall (fun c => cls c = true) w /\ exists s', t = w ++ s' /\ k s' = Some r).
  { intros t Ht. destruct (k t) as [r'|] eqn:Hk; [|discriminate].
    injection Ht as <- <-. split; [constructor|]. now exists t. }
  revert w r Hstop. induction s as [|c s IH]; intros w r Hstop; cbn; [apply Hstop|].
  destruct (cls c) eqn:Hc; [|apply Hstop].
  destruct (greedy cls k s) as [[w' r']|] eqn:Hg; [|apply Hstop].
  intros [= <- <-].
  destruct (IH w' r') as (Hw & s' & -> & Hk); [|reflexivity|].
  { intros t Ht. destruct (k t) as [r''|] eqn:Hk; [|discriminate].
    injection Ht as <- <-. split; [constructor|]. now exists t. }
  split; [now constructor|]. now exists s'.
Qed.

Lemma greedy_stop (cls : ascii -> bool) k (s : list ascii) :
  is_Some (k s) -> is_Some (greedy cls k s).
Proof.
  intros [r Hr]. destruct s as [|c s]; cbn.
  - rewrite Hr. now eexists.
  - destruct (cls c); [|rewrite Hr; now eexists].
    destruct (greedy cls k s) as [[w' r']|]; [now eexists|].
    rewrite Hr. now eexists.
Qed.

Lemma greedy_complete (cls : ascii -> bool) k (w s' : list ascii) :
  Forall (fun c => cls c = true) w -> is_Some (k s') ->
  is_Some (greedy cls k (w ++ s')).
Proof.
  intros Hw Hk. induction Hw as [|c w Hc Hw IH]; cbn.
  - now apply greedy_stop.
  - rewrite Hc. destruct IH as [[w' r'] ->]. now eexists.
Qed.

Lemma match_here_sound (re : list atom) (s : list ascii) (ps : list (list ascii)) :
  match_here re s = Some ps ->
  Forall2 accepts re ps /\ exists rest, s = concat ps ++ rest.
Proof.
  revert s ps. induction re as [|a re IH]; intros s ps; cbn.
  - intros [= <-]. split; [constructor|]. now exists s.
  - destruct a as [l|cls|cls].
    + destruct (cut_prefix l s) as [s'|] eqn:Hcut; [|discriminate].
      apply cut_prefix_Some in Hcut as ->.
      destruct (match_here re s') as [ps'|] eqn:Hm; [|discriminate].
      intros [= <-]. destruct (IH _ _ Hm) as (Hacc & rest & ->).
      split; [now constructor|]. exists rest. cbn. now rewrite <- app_assoc.
    + destruct (greedy cls (match_here re) s) as [[w r]|] eqn:Hg; [|discriminate].
      intros [= <-]. apply greedy_sound in Hg as (Hw & s' & -> & Hm).
      destruct (IH _ _ Hm) as (Hacc & rest & ->).
      split; [now constructor|]. exists rest. cbn. now rewrite <- app_assoc.
    + destruct s as [|c s]; [discriminate|].
      destruct (cls c) eqn:Hc; [|discriminate].
      destruct (greedy cls (match_here re) s) as [[w r]|] eqn:Hg; [|discriminate].
      intros [= <-]. apply greedy_sound in Hg as (Hw & s' & -> & Hm).
      destruct (IH _ _ Hm) as (Hacc & rest & ->).
      split.
      * constructor; [|assumption]. split; [discriminate|now constructor].
      * exists rest. cbn. now rewrite <- app_assoc.
Qed.

Lemma match_here_complete (re : list atom) (ps : list (list ascii)) (rest : list ascii) :
  Forall2 accepts re ps -> is_Some (match_here re (concat ps ++ rest)).
Proof.
  intros Hacc. induction Hacc as [|a w re ps Ha Hacc IH]; cbn; [now eexists|].
  rewrite <- app_assoc. destruct a as [l|cls|cls]; cbn in Ha.
  - subst w. assert (Hcut : cut_prefix l (l ++ concat ps ++ rest)
                            = Some (concat ps ++ rest)) by now apply cut_prefix_Some.
    rewrite Hcut. destruct IH as [r ->]. now eexists.
  - destruct (greedy_complete cls (match_here re) w (concat ps ++ rest) Ha IH)
      as [[w' r'] ->]. now eexists.
  - destruct Ha as [Hne Hw]. destruct w as [|c w]; [congruence|].
    apply Forall_cons in Hw as [Hc Hw]. cbn. rewrite Hc.
    destruct (greedy_complete cls (match_here re) w (concat ps ++ rest) Hw IH)
      as [[w' r'] ->]. now eexists.
Qed.

Lemma find_from_Some (re : list atom) (s : list ascii) (i j : nat) ps :
  find_from re s i = Some (j, ps) ->
  exists k, j = (i + k)%nat /\ match_here re (drop k s) = Some ps /\
            forall k', (k' < k)%nat -> match_here re (drop k' s) = None.
Proof.
  revert i. induction s as [|c s IH]; intros i; cbn.
  - destruct (match_here re []) as [ps'|] eqn:Hm; [|discriminate].
    intros [= <- <-]. exists 0%nat. repeat split; [lia|assumption|lia].
  - destruct (match_here re (c :: s)) as [ps'|] eqn:Hm.
    + intros [= <- <-]. exists 0%nat. repeat split; [lia|assumption|lia].
    + intros Hf. destruct (IH _ Hf) as (k & -> & Hk & Hlt).
      exists (S k). repeat split; [lia|assumption|].
      intros [|k'] Hk'; [assumption|]. cbn. apply Hlt. lia.
Qed.

Lemma find_from_None (re : list atom) (s : list ascii) (i : nat) :
  find_from re s i = None -> forall k, match_here re (drop k s) = None.
Proof.
  revert i. induction s as [|c s IH]; intros i; cbn.
  - destruct (match_here re []) eqn:Hm; [discriminate|].
    intros _ k. now rewrite drop_nil.
  - destruct (match_here re (c :: s)) eqn:Hm; [discriminate|].
    intros Hf [|k]; [assumption|]. cbn. eapply IH, Hf.
Qed.

Lemma find_from_first (re : list atom) (s : list ascii) (k : nat) ps :
  match_here re (drop k s) = Some ps ->
  (forall k', (k' < k)%nat -> match_here re (drop k' s) = None) ->
  find_from re s 0 = Some (k, ps).
Proof.
  intros Hk Hlt. destruct (find_from re s 0) as [[j ps']|] eqn:Hf.
  - apply find_from_Some in Hf as (k0 & -> & Hk0 & Hlt0). cbn.
    destruct (Nat.lt_trichotomy k0 k) as [Hc|[->|Hc]].
    + rewrite (Hlt _ Hc) in Hk0. discriminate.
    + congruence.
    + rewrite (Hlt0 _ Hc) in Hk. discriminate.
  - rewrite (find_from_None _ _ _ Hf k) in Hk. discriminate.
Qed.

End Regexp.

(* ===================================================================== *)
(** ** The two expressions of the quota middleware *)
(* ===================================================================== *)

Section QuotaXML.
Import regexp http server.

Lemma after_last_colon_app (acc x y : list ascii) :
  after_last_colon acc (x ++ y) = after_last_colon (after_last_colon acc x) y.
Proof.
  revert acc. induction x as [|c x IH]; intros acc; cbn; [reflexivity|].
  destruct (is_colon c); apply IH.
Qed.

Lemma after_last_colon_suffix (acc q : list ascii) :
  suffix (after_last_colon acc q) (acc ++ q).
Proof.
  revert acc. induction q as [|c q IH]; intros acc; cbn.
  - rewrite app_nil_r. reflexivity.
  - destruct (is_colon c).
    + destruct (IH []) as [k Hk]. cbn in Hk. exists (acc ++ c :: k).
      rewrite <- app_assoc. cbn. now rewrite <- Hk.
    + specialize (IH (acc ++ [c])). now rewrite <- app_assoc in IH.
Qed.

Lemma local_name_prop (x : list ascii) :
  local_name (x ++ bytes "prop") = local_name x ++ bytes "prop".
Proof.
  unfold local_name. rewrite after_last_colon_app. cbn.
  now rewrite <- !app_assoc.
Qed.

Lemma suffix_prop_local_name (q : list ascii) :
  suffix (bytes "prop") (local_name q) <-> suffix (bytes "prop") q.
Proof.
  split.
  - intros Hs. etransitivity; [exact Hs|]. apply (after_last_colon_suffix [] q).
  - intros [x ->]. rewrite local_name_prop. now exists (local_name x).
Qed.

Lemma propEnd_here (body : list ascii) (i : nat) :
  is_Some (match_here (atoms propEndRegex) (drop i body)) <-> prop_close_at body i.
Proof.
  split.
  - intros [ps Hm]. apply match_here_sound in Hm as (Hacc & rest & Hd).
    cbn in Hacc.
    apply Forall2_cons_inv_l in Hacc as (a & ps1 & Ha & Hacc & ->).
    apply Forall2_cons_inv_l in Hacc as (w & ps2 & Hw & Hacc & ->).
    apply Forall2_cons_inv_l in Hacc as (b & ps3 & Hb & Hacc & ->).
    apply Forall2_nil_inv_l in Hacc as ->. cbn in Ha, Hw, Hb. subst a b.
    exists (w ++ bytes "prop"), rest. split; [|split].
    + rewrite Hd. cbn. now rewrite <- !app_assoc.
    + apply Forall_app. split; [assumption|]. now repeat constructor.
    + apply suffix_prop_local_name. now exists w.
  - intros (q & rest & Hd & Hq & Hs).
    apply suffix_prop_local_name in Hs as [w ->].
    apply Forall_app in Hq as [Hw _]. rewrite Hd.
    replace (bytes "</" ++ (w ++ bytes "prop") ++ bytes ">" ++ rest)
      with (concat [bytes "</"; w; bytes "prop>"] ++ rest)
      by (cbn; now rewrite <- !app_assoc).
    apply match_here_complete. cbn. repeat constructor. assumption.
Qed.

Lemma FindStringIndex_propEnd_first (body : list ascii) (i : nat) :
  prop_close_at body i ->
  (forall j, (j < i)%nat -> ~ prop_close_at body j) ->
  exists e, FindStringIndex propEndRegex body = Some (i, e).
Proof.
  intros Hi Hlt. apply propEnd_here in Hi as [ps Hps].
  unfold FindStringIndex. rewrite (find_from_first _ _ i ps Hps).
  - now eexists.
  - intros j Hj. specialize (Hlt j Hj). rewrite <- propEnd_here in Hlt.
    destruct (match_here (atoms propEndRegex) (drop j body)); [|reflexivity].
    exfalso. apply Hlt. now eexists.
Qed.

Lemma FindStringIndex_propEnd_none (body : list ascii) :
  (forall i, ~ prop_close_at body i) -> FindStringIndex propEndRegex body = None.
Proof.
  intros Hno. unfold FindStringIndex.
  destruct (find_from (atoms propEndRegex) body 0) as [[j ps]|] eqn:Hf; [|reflexivity].
  apply find_from_Some in Hf as (k & _ & Hk & _).
  exfalso. apply (Hno k), propEnd_here. now exists ps.
Qed.

Lemma class_run_unique (cls : ascii -> bool) (c : ascii) (p p' r r' : list ascii) :
  cls c = false ->
  Forall (fun x => cls x = true) p -> Forall (fun x => cls x = true) p' ->
  p ++ c :: r = p' ++ c :: r' -> p = p'.
Proof.
  intros Hc Hp. revert p'. induction Hp as [|x p Hx Hp IH]; intros p' Hp' Heq.
  - destruct Hp' as [|y p' Hy _]; [reflexivity|]. cbn in Heq. congruence.
  - destruct Hp' as [|y p' Hy Hp']; cbn in Heq; [congruence|].
    injection Heq as <- Heq. f_equal. now apply IH.
Qed.

Lemma ns_decl_unique (body : list ascii) (i : nat) (p p' : list ascii) :
  ns_decl_at body i p -> ns_decl_at body i p' -> p = p'.
Proof.
  intros (rest & Hd & _ & Hp) (rest' & Hd' & _ & Hp'). rewrite Hd in Hd'.
  apply app_inv_head in Hd'. cbn in Hd'.
  eapply (class_run_unique prefix_char "="%char); [reflexivity|exact Hp|exact Hp'|].
  exact Hd'.
Qed.

Lemma ns_here_sound (body : list ascii) (i : nat) ps :
  match_here (atoms nsRegex) (drop i body) = Some ps ->
  exists p, ps = [bytes "xmlns:"; p; eq_DAV] /\ ns_decl_at body i p.
Proof.
  intros Hm. apply match_here_sound in Hm as (Hacc & rest & Hd). cbn in Hacc.
  apply Forall2_cons_inv_l in Hacc as (a & ps1 & Ha & Hacc & ->).
  apply Forall2_cons_inv_l in Hacc as (p & ps2 & Hp & Hacc & ->).
  apply Forall2_cons_inv_l in Hacc as (b & ps3 & Hb & Hacc & ->).
  apply Forall2_nil_inv_l in Hacc as ->. cbn in Ha, Hp, Hb. subst a b.
  destruct Hp as [Hne Hp]. exists p. split; [reflexivity|].
  exists rest. split; [|split; assumption].
  rewrite Hd. cbn [concat]. now rewrite app_nil_r, <- !app_assoc.
Qed.

Lemma ns_here_complete (body : list ascii) (i : nat) (p : list ascii) :
  ns_decl_at body i p ->
  match_here (atoms nsRegex) (drop i body) = Some [bytes "xmlns:"; p; eq_DAV].
Proof.
  intros Hp. pose proof Hp as (rest & Hd & Hne & Hcls).
  assert (Hm : is_Some (match_here (atoms nsRegex) (drop i body))).
  { rewrite Hd.
    replace (bytes "xmlns:" ++ p ++ eq_DAV ++ rest)
      with (concat [bytes "xmlns:"; p; eq_DAV] ++ rest)
      by (cbn [concat]; now rewrite app_nil_r, <- !app_assoc).
    apply match_here_complete. cbn. repeat constructor; assumption. }
  destruct Hm as [ps Hps]. rewrite Hps.
  apply ns_here_sound in Hps as (p' & -> & Hp').
  now rewrite (ns_decl_unique body i p p' Hp Hp').
Qed.

Lemma davPrefix_first (body : list ascii) (i : nat) (p : list ascii) :
  ns_decl_at body i p ->
  (forall j q, (j < i)%nat -> ~ ns_decl_at body j q) ->
  davPrefix body = p.
Proof.
  intros Hp Hlt. unfold davPrefix, FindStringSubmatch.
  rewrite (find_from_first _ _ i _ (ns_here_complete body i p Hp)).
  - cbn. apply app_nil_r.
  - intros j Hj.
    destruct (match_here (atoms nsRegex) (drop j body)) as [ps|] eqn:Hm; [|reflexivity].
    apply ns_here_sound in Hm as (q & _ & Hq). now destruct (Hlt j q Hj).
Qed.

Lemma davPrefix_default (body : list ascii) :
  (forall i p, ~ ns_decl_at body i p) -> davPrefix body = bytes "D".
Proof.
  intros Hno. unfold davPrefix, FindStringSubmatch.
  destruct (find_from (atoms nsRegex) body 0) as [[j ps]|] eqn:Hf; [|reflexivity].
  apply find_from_Some in Hf as (k & _ & Hk & _).
  apply ns_here_sound in Hk as (q & _ & Hq). now destruct (Hno k q).
Qed.

Lemma none_before (re : Regexp) (body : list ascii) (i : nat) :
  forallb (fun j => negb (matches_at re body j)) (seq 0 i) = true ->
  forall j, (j < i)%nat -> match_here (atoms re) (drop j body) = None.
Proof.
  intros Hall j Hj. rewrite forallb_forall in Hall.
  specialize (Hall j). unfold matches_at in Hall.
  destruct (match_here (atoms re) (drop j body)); [|reflexivity].
  discriminate Hall. apply in_seq. lia.
Qed.

Lemma no_prop_close_before (body : list ascii) (i : nat) :
  forallb (fun j => negb (matches_at propEndRegex body j)) (seq 0 i) = true ->
  forall j, (j < i)%nat -> ~ prop_close_at body j.
Proof.
  intros Hall j Hj Hc. apply propEnd_here in Hc as [ps Hps].
  now rewrite (none_before _ _ _ Hall j Hj) in Hps.
Qed.

Lemma no_ns_decl_before (body : list ascii) (i : nat) :
  forallb (fun j => negb (matches_at nsRegex body j)) (seq 0 i) = true ->
  forall j q, (j < i)%nat -> ~ ns_decl_at body j q.
Proof.
  intros Hall j q Hj Hc. apply ns_here_complete in Hc.
  now rewrite (none_before _ _ _ Hall j Hj) in Hc.
Qed.

End QuotaXML.

(* ===================================================================== *)
(** ** The quota middleware *)
(* ===================================================================== *)

Section QuotaMiddleware.
Import regexp http server.
Context `{!Filepath}.

Lemma responseBuffer_calls {W} `{!ResponseWriter W} (cs : list call)
    (rb : responseBuffer W) :
  fold_left (fun w c => do_call c w) cs rb =
  {| ResponseWriter_ :=
       fold_left (fun w c => match c with CallHeader f => updHeader f w | _ => w end)
         cs (ResponseWriter_ rb);
     body := body rb ++ bytes_written cs;
     code := status_requested (code rb) cs |}.
Proof.
  revert rb. induction cs as [|c cs IH]; intros rb.
  - destruct rb. cbn. now rewrite app_nil_r.
  - cbn [fold_left]. rewrite IH. destruct c; cbn; try reflexivity.
    now rewrite <- app_assoc.
Qed.

Lemma response_header_calls (cs : list call) (h : Header) :
  fold_left (fun w c => match c with CallHeader f => updHeader f w | _ => w end)
    cs (newResponse h) = newResponse (header_changes cs h).
Proof.
  revert h. induction cs as [|c cs IH]; intros h; [reflexivity|].
  cbn [fold_left header_changes]. destruct c; apply IH.
Qed.

Lemma capture_newResponse (next : Handler) (h : Header) (r : Request) :
  capture next (newResponse h) r =
  {| ResponseWriter_ := newResponse (header_changes (next r) h);
     body := bytes_written (next r);
     code := status_requested StatusOK (next r) |}.
Proof.
  unfold capture, ServeHTTP. rewrite responseBuffer_calls. cbn.
  now rewrite response_header_calls.
Qed.

Lemma quotaMiddleware_other (s : Server) (os : OS) (next : Handler)
    {W} `{!ResponseWriter W} (w : W) (r : Request) :
  Method r <> "PROPFIND" \/ Path r <> "/" ->
  quotaMiddleware s os next w r = (ServeHTTP next w r, []).
Proof.
  intros Hr. unfold quotaMiddleware.
  destruct (String.eqb_spec (Method r) "PROPFIND") as [Hm|Hm];
    destruct (String.eqb_spec (Path r) "/") as [Hp|Hp]; cbn; try reflexivity.
  tauto.
Qed.

Lemma quotaMiddleware_root (s : Server) (os : OS) (next : Handler) (h : Header)
    (r : Request) :
  Method r = "PROPFIND" -> Path r = "/" ->
  let rb := capture next (newResponse h) r in
  quotaMiddleware s os next (newResponse h) r =
    if negb (code rb =? StatusMultiStatus) then
      ({| handlerHeader := Header_ rb;
          wroteHeader := Some (code rb, Header_ rb);
          written := body rb |}, [])
    else
      let '(free, used, err) := diskUsage s os in
      let served := match err with
                    | None => injectQuota (body rb) free used
                    | Some _ => body rb
                    end in
      let h1 := Header_Set "Content-Length" (Itoa (Z.of_nat (length served)))
                  (Header_ rb) in
      let h2 := if String.eqb (Header_Get h1 "Content-Type") ""
                then Header_Set "Content-Type" "text/xml; charset=utf-8" h1
                else h1 in
      ({| handlerHeader := h2; wroteHeader := Some (code rb, h2); written := served |},
       match err with None => [] | Some e => [warnDiskUsage e] end).
Proof.
  intros Hm Hp rb. unfold quotaMiddleware. rewrite Hm, Hp. cbn [String.eqb Ascii.eqb andb].
  change (ServeHTTP next {| ResponseWriter_ := newResponse h; body := []; code := StatusOK |} r)
    with rb.
  subst rb. rewrite capture_newResponse. cbn [code body ResponseWriter_].
  destruct (negb (status_requested StatusOK (next r) =? StatusMultiStatus)); [reflexivity|].
  destruct (diskUsage s os) as [[free used] [e|]]; cbn;
    match goal with |- context [String.eqb ?a ?b] => destruct (String.eqb a b) end;
    reflexivity.
Qed.

End QuotaMiddleware.

(* ===================================================================== *)
(** ** The directory walk *)
(* ===================================================================== *)

Section DirUsage.
Import server.

Lemma node_nested_ind (P : node -> Prop) :
  (forall info, P (File info)) ->
  (forall entries rderr, Forall P entries -> P (Dir entries rderr)) ->
  forall d, P d.
Proof.
  intros HFile HDir. fix IH 1. intros [info|entries rderr]; [apply HFile|].
  apply HDir. induction entries as [|d entries IHentries]; constructor.
  - apply IH.
  - exact IHentries.
Qed.

Lemma walkDir_Dir {S} (fn : option node -> option error -> S -> S * option error)
    (entries : list node) (rderr : option error) (st : S) :
  walkDir fn (Dir entries rderr) st =
  match fn (Some (Dir entries rderr)) None st with
  | (st, Some err) => (st, Some err)
  | (st, None) =>
      let '(st, err) :=
        match rderr with
        | Some err => fn (Some (Dir entries rderr)) (Some err) st
        | None => (st, None)
        end in
      match err with
      | Some err => (st, Some err)
      | None => walkEntries fn entries st
      end
  end.
Proof.
  cbn [walkDir].
  destruct (fn (Some (Dir entries rderr)) None st) as [st1 [e|]]; [reflexivity|].
  destruct (match rderr with Some err => _ | None => _ end) as [st2 [e|]];
    [reflexivity|].
  revert st2. induction entries as [|d entries IH]; intros st2; [reflexivity|].
  cbn. destruct (walkDir fn d st2) as [st3 [e|]]; [reflexivity|apply IH].
Qed.

Lemma uint64_range (z : Z) : 0 <= z mod uint64_max < uint64_max.
Proof. apply Z.mod_pos_bound. reflexivity. Qed.

Lemma add64_assoc (total a b : Z) :
  add64 (add64 total a) b = add64 total (a + b).
Proof.
  unfold add64. rewrite Zplus_mod_idemp_l. f_equal. lia.
Qed.

Lemma add64_sum (total a b : Z) :
  ((total + a) mod uint64_max + b) mod uint64_max = (total + (a + b)) mod uint64_max.
Proof. apply add64_assoc. Qed.

(** The walk never leaves the range of [uint64]. *)
Lemma walkDir_usage_range (d : node) (total : Z) :
  0 <= total < uint64_max -> 0 <= (walkDir usageFn d total).1 < uint64_max.
Proof.
  revert total. induction d as [info|entries rderr IH] using node_nested_ind;
    intros total Ht.
  - destruct info as [e|size]; cbn; [exact Ht|apply uint64_range].
  - rewrite walkDir_Dir. cbn [usageFn].
    assert (Hloop : forall total, 0 <= total < uint64_max ->
              0 <= (walkEntries usageFn entries total).1 < uint64_max).
    { clear total Ht. induction IH as [|d entries Hd _ IHentries]; intros total Ht;
        cbn; [exact Ht|].
      specialize (Hd total Ht). destruct (walkDir usageFn d total) as [t [e|]];
        cbn in *; [exact Hd|]. now apply IHentries. }
    destruct rderr as [e|]; [|now apply Hloop].
    destruct (os_IsNotExist e); cbn; [now apply Hloop|exact Ht].
Qed.

(** The walk stops at the first error that is not "not exist". *)
Lemma walkDir_usage_error (d : node) (total : Z) :
  (walkDir usageFn d total).2 = first_fatal d.
Proof.
  revert total. induction d as [info|entries rderr IH] using node_nested_ind;
    intros total.
  - now destruct info.
  - rewrite walkDir_Dir. cbn [usageFn]. unfold first_fatal. cbn [read_errors].
    assert (Hloop : forall total,
              (walkEntries usageFn entries total).2
              = head (List.filter fatal (concat (map read_errors entries)))).
    { clear total. induction IH as [|d entries Hd _ IHentries]; intros total;
        cbn; [reflexivity|].
      rewrite List.filter_app. specialize (Hd total). unfold first_fatal in Hd.
      destruct (walkDir usageFn d total) as [t [e|]]; cbn in *.
      - destruct (List.filter fatal (read_errors d)); [discriminate|exact Hd].
      - destruct (List.filter fatal (read_errors d)); [apply IHentries|discriminate]. }
    destruct rderr as [e|]; [|apply Hloop].
    cbn. unfold fatal at 1. destruct (os_IsNotExist e); cbn; [apply Hloop|reflexivity].
Qed.

(** Without such an error the walk adds up the sizes. *)
Lemma walkDir_usage_total (d : node) (total : Z) :
  Forall (fun e => os_IsNotExist e = true) (read_errors d) ->
  0 <= total < uint64_max ->
  walkDir usageFn d total = ((total + sum_sizes d) mod uint64_max, None).
Proof.
  revert total. induction d as [info|entries rderr IH] using node_nested_ind;
    intros total Herr Ht.
  - destruct info as [e|size]; cbn; [|reflexivity].
    rewrite Z.add_0_r, Z.mod_small; [reflexivity|exact Ht].
  - rewrite walkDir_Dir. cbn [usageFn sum_sizes]. cbn [read_errors] in Herr.
    apply Forall_app in Herr as [Hrd Herr].
    assert (Hloop : forall total, 0 <= total < uint64_max ->
              walkEntries usageFn entries total
              = ((total + fold_right Z.add 0 (map sum_sizes entries)) mod uint64_max,
                 None)).
    { clear total Ht Hrd. induction IH as [|d entries Hd _ IHentries]; intros total Ht.
      - cbn. rewrite Z.add_0_r, Z.mod_small; [reflexivity|exact Ht].
      - cbn in Herr. apply Forall_app in Herr as [Herr1 Herr2].
        cbn. rewrite (Hd total Herr1 Ht).
        rewrite (IHentries Herr2); [|apply uint64_range].
        now rewrite add64_sum. }
    destruct rderr as [e|]; [|now apply Hloop].
    apply Forall_cons in Hrd as [He _]. rewrite He. now apply Hloop.
Qed.

Lemma first_fatal_None (d : node) :
  first_fatal d = None <-> Forall (fun e => os_IsNotExist e = true) (read_errors d).
Proof.
  unfold first_fatal. induction (read_errors d) as [|e l IH]; cbn.
  - split; [constructor|reflexivity].
  - unfold fatal at 1. destruct (os_IsNotExist e) eqn:He; cbn.
    + rewrite IH. split; [now constructor|]. now intros [_ ?]%Forall_cons.
    + split; [discriminate|]. intros [? _]%Forall_cons. congruence.
Qed.

End DirUsage.

(* ===================================================================== *)
(** ** Properties of the usage computation and of the quota middleware *)
(* ===================================================================== *)

Section Claims.
Import regexp http server.
Context `{!Filepath}.

Lemma getDirUsedBytes_range (os : OS) (dir : string) :
  0 <= (getDirUsedBytes os dir).1 < uint64_max.
Proof.
  unfold getDirUsedBytes, WalkDir. destruct (os_Lstat os dir) as [e|t].
  - cbn. destruct (os_IsNotExist e); cbn; split; reflexivity || discriminate.
  - apply walkDir_usage_range. split; reflexivity || discriminate.
Qed.

Lemma diskUsage_quota (s : Server) (os : OS) (d : Z) :
  0 < QuotaBytes s < uint64_max ->
  getDirUsedBytes os (DataDir s) = (d, None) ->
  diskUsage s os = (QuotaBytes s - Z.min d (QuotaBytes s), Z.min d (QuotaBytes s), None).
Proof.
  intros HQ Hd. pose proof (getDirUsedBytes_range os (DataDir s)) as Hr.
  rewrite Hd in Hr. cbn in Hr. unfold diskUsage.
  destruct (Z.ltb_spec 0 (QuotaBytes s)) as [_|]; [|lia]. rewrite Hd.
  destruct (Z.ltb_spec (QuotaBytes s) d) as [Hlt|Hge].
  - rewrite Z.leb_refl, Z.min_r by lia. unfold sub64.
    now rewrite Z.sub_diag.
  - destruct (Z.leb_spec d (QuotaBytes s)) as [_|]; [|lia].
    rewrite Z.min_l by lia. unfold sub64. rewrite Z.mod_small; [reflexivity|lia].
Qed.

Lemma diskUsage_error (s : Server) (os : OS) (err : error) :
  (0 < QuotaBytes s /\ (getDirUsedBytes os (DataDir s)).2 = Some err) \/
  (QuotaBytes s <= 0 /\
   (getDiskUsage os (let absPath := (filepath_Abs (DataDir s)).1 in
                     if String.eqb absPath "" then DataDir s else absPath)).2
   = Some err) ->
  (diskUsage s os).2 = Some err.
Proof.
  unfold diskUsage. intros [[HQ He]|[HQ He]].
  - destruct (Z.ltb_spec 0 (QuotaBytes s)) as [_|]; [|lia].
    destruct (getDirUsedBytes os (DataDir s)) as [used [e|]]; cbn in *; congruence.
  - destruct (Z.ltb_spec 0 (QuotaBytes s)) as [|_]; [lia|].
    destruct (filepath_Abs (DataDir s)) as [absPath e]. exact He.
Qed.

Lemma response_written (cs : list call) (w : response) :
  written (fold_left (fun w c => do_call c w) cs w) = written w ++ bytes_written cs.
Proof.
  revert w. induction cs as [|c cs IH]; intros w; cbn [fold_left].
  - cbn. now rewrite app_nil_r.
  - rewrite IH. destruct c; cbn; try reflexivity.
    + unfold response_WriteHeader. now destruct (wroteHeader w).
    + unfold response_WriteHeader. destruct (wroteHeader w); cbn;
        now rewrite <- app_assoc.
Qed.

(** C1.  Under a quota and with a directory usage [d] computed without
    error, the used bytes are the smaller of [d] and the quota and the free
    bytes are the quota less the used bytes: not negative, and the [uint64]
    subtraction does not wrap.  A quota of 10 gives used 10, free 0 for a
    usage of 15 and used 4, free 6 for a usage of 4.  These are the figures
    written into the listing of the root. *)
Theorem quota_clamp (s : Server) (os : OS) (d : Z) :
  0 < QuotaBytes s < uint64_max ->
  getDirUsedBytes os (DataDir s) = (d, None) ->
  let used := Z.min d (QuotaBytes s) in
  let free := QuotaBytes s - used in
  diskUsage s os = (free, used, None) /\
  0 <= used <= QuotaBytes s /\
  0 <= free < uint64_max /\
  sub64 (QuotaBytes s) used = free /\
  (QuotaBytes s = 10 -> d = 15 -> used = 10 /\ free = 0) /\
  (QuotaBytes s = 10 -> d = 4 -> used = 4 /\ free = 6) /\
  (forall next h r,
     Method r = "PROPFIND" -> Path r = "/" ->
     code (capture next (newResponse h) r) = StatusMultiStatus ->
     written (quotaMiddleware s os next (newResponse h) r).1
     = injectQuota (body (capture next (newResponse h) r)) free used).
Proof.
  intros HQ Hd used free. pose proof (getDirUsedBytes_range os (DataDir s)) as Hr.
  rewrite Hd in Hr. cbn in Hr.
  assert (Hused : 0 <= used <= QuotaBytes s) by (unfold used; lia).
  repeat split; try (unfold free, used; lia).
  - apply diskUsage_quota; assumption.
  - unfold sub64. apply Z.mod_small. unfold free, used. lia.
  - intros next h r Hm Hp Hc. rewrite (quotaMiddleware_root s os next h r Hm Hp).
    rewrite Hc. cbn [Z.eqb negb StatusMultiStatus Pos.eqb].
    now rewrite (diskUsage_quota s os d HQ Hd).
Qed.

(** C2.  A request whose method is not PROPFIND or whose path is not the
    root is served by the inner handler on the writer itself.  On a PROPFIND
    of the root whose captured status is not 207, the client receives the
    captured status, the headers as the inner handler left them and the
    captured body, which is byte for byte what the inner handler wrote and
    what it would have sent without the middleware; nothing is logged. *)
Theorem quota_passthrough (s : Server) (os : OS) (next : Handler) (r : Request) :
  (forall W (RW : ResponseWriter W) (w : W),
     Method r <> "PROPFIND" \/ Path r <> "/" ->
     quotaMiddleware s os next w r = (ServeHTTP next w r, [])) /\
  (forall h,
     Method r = "PROPFIND" -> Path r = "/" ->
     let rb := capture next (newResponse h) r in
     code rb <> StatusMultiStatus ->
     quotaMiddleware s os next (newResponse h) r
     = ({| handlerHeader := Header_ rb;
           wroteHeader := Some (code rb, Header_ rb);
           written := body rb |}, []) /\
     body rb = bytes_written (next r) /\
     body rb = written (ServeHTTP next (newResponse h) r) /\
     code rb = status_requested StatusOK (next r) /\
     Header_ rb = header_changes (next r) h).
Proof.
  split.
  - intros W RW w. apply quotaMiddleware_other.
  - intros h Hm Hp rb Hc. split; [|split; [|split; [|split]]].
    + rewrite (quotaMiddleware_root s os next h r Hm Hp). fold rb.
      destruct (Z.eqb_spec (code rb) StatusMultiStatus); [contradiction|reflexivity].
    + subst rb. now rewrite capture_newResponse.
    + subst rb. rewrite capture_newResponse. unfold ServeHTTP.
      now rewrite response_written.
    + subst rb. now rewrite capture_newResponse.
    + subst rb. now rewrite capture_newResponse.
Qed.

(** The text between the tags is the decimal numeral of the count: read
    as a decimal numeral, [Itoa z] is [z]. *)
Lemma Itoa_decimal (z : Z) :
  option_map Z.of_int (NilZero.int_of_string (Itoa z)) = Some z.
Proof.
  unfold Itoa. rewrite NilZero.isi.
  - cbn. now rewrite DecimalZ.of_to.
  - destruct z as [|q|q]; cbn; try discriminate.
    intros [= Hq]. now apply DecimalPos.Unsigned.to_uint_nonnil in Hq.
  - destruct z as [|q|q]; cbn; try discriminate.
    intros [= Hq]. now apply DecimalPos.Unsigned.to_uint_nonnil in Hq.
Qed.

Lemma quotaXML_text (p : list ascii) (free used : Z) :
  quotaXML p free used =
    bytes "<" ++ p ++ bytes ":quota-available-bytes>" ++ bytes (Itoa free)
    ++ bytes "</" ++ p ++ bytes ":quota-available-bytes>"
    ++ bytes "<" ++ p ++ bytes ":quota-used-bytes>" ++ bytes (Itoa used)
    ++ bytes "</" ++ p ++ bytes ":quota-used-bytes>".
Proof.
  unfold quotaXML. cbn [bytes list_ascii_of_string app].
  rewrite <- ?app_assoc. reflexivity.
Qed.

(** C3, as amended.  On a PROPFIND of the root answered with status 207,
    with the usage known, the body sent is [injectQuota] of the captured
    body.  The prefix is the one of the first declaration [xmlns:p="DAV:"]
    whose prefix [p] is made of letters, digits and [_], and [D] when there
    is none; the two elements are inserted just before the first closing tag
    [</q>] whose name [q] is made of letters, digits, [_] and [:] and whose
    local name ends in [prop]; and a body without such a tag is sent as it
    is.  The text inserted is the element [quota-available-bytes] and then
    the element [quota-used-bytes], each under the prefix, opened and closed,
    the first around the free bytes and the second around the used bytes,
    written as decimal numerals; the body sent is the captured body up to
    the closing tag, this text, and the rest of the captured body. *)
Theorem quota_injection (s : Server) (os : OS) (next : Handler) (h : Header)
    (r : Request) (free used : Z) :
  Method r = "PROPFIND" -> Path r = "/" ->
  code (capture next (newResponse h) r) = StatusMultiStatus ->
  diskUsage s os = (free, used, None) ->
  let bodyStr := body (capture next (newResponse h) r) in
  let p := davPrefix bodyStr in
  let elements :=
    bytes "<" ++ p ++ bytes ":quota-available-bytes>" ++ bytes (Itoa free)
    ++ bytes "</" ++ p ++ bytes ":quota-available-bytes>"
    ++ bytes "<" ++ p ++ bytes ":quota-used-bytes>" ++ bytes (Itoa used)
    ++ bytes "</" ++ p ++ bytes ":quota-used-bytes>" in
  written (quotaMiddleware s os next (newResponse h) r).1 = injectQuota bodyStr free used /\
  (forall i p, ns_decl_at bodyStr i p ->
     (forall j q, (j < i)%nat -> ~ ns_decl_at bodyStr j q) ->
     davPrefix bodyStr = p) /\
  ((forall i p, ~ ns_decl_at bodyStr i p) -> davPrefix bodyStr = bytes "D") /\
  (forall i, prop_close_at bodyStr i ->
     (forall j, (j < i)%nat -> ~ prop_close_at bodyStr j) ->
     injectQuota bodyStr free used
     = take i bodyStr ++ quotaXML (davPrefix bodyStr) free used ++ drop i bodyStr) /\
  ((forall i, ~ prop_close_at bodyStr i) -> injectQuota bodyStr free used = bodyStr) /\
  quotaXML p free used = elements /\
  (forall i, prop_close_at bodyStr i ->
     (forall j, (j < i)%nat -> ~ prop_close_at bodyStr j) ->
     written (quotaMiddleware s os next (newResponse h) r).1
     = take i bodyStr ++ elements ++ drop i bodyStr) /\
  option_map Z.of_int (NilZero.int_of_string (Itoa free)) = Some free /\
  option_map Z.of_int (NilZero.int_of_string (Itoa used)) = Some used.
Proof.
  intros Hm Hp Hc Hu bodyStr p elements.
  assert (Hsent : written (quotaMiddleware s os next (newResponse h) r).1
                  = injectQuota bodyStr free used).
  { rewrite (quotaMiddleware_root s os next h r Hm Hp). rewrite Hc, Hu. reflexivity. }
  assert (Hsplice : forall i, prop_close_at bodyStr i ->
            (forall j, (j < i)%nat -> ~ prop_close_at bodyStr j) ->
            injectQuota bodyStr free used
            = take i bodyStr ++ quotaXML (davPrefix bodyStr) free used ++ drop i bodyStr).
  { intros i Hi Hlt. unfold injectQuota.
    destruct (FindStringIndex_propEnd_first bodyStr i Hi Hlt) as [e ->]. reflexivity. }
  split; [exact Hsent|]. split; [apply davPrefix_first|].
  split; [apply davPrefix_default|]. split; [exact Hsplice|].
  split; [intros Hno; unfold injectQuota; now rewrite FindStringIndex_propEnd_none|].
  split; [apply quotaXML_text|].
  split; [|split; apply Itoa_decimal].
  intros i Hi Hlt. rewrite Hsent, (Hsplice i Hi Hlt). fold p.
  now rewrite quotaXML_text.
Qed.

(** C4.  On a PROPFIND of the root answered with status 207, whether or not
    the body was rewritten, the headers sent carry a Content-Length that is
    the decimal length of the body sent; the Content-Type is set to the
    default when the header map has none, and left as it is otherwise; no
    other header is touched. *)
Theorem content_length_of_served_body (s : Server) (os : OS) (next : Handler)
    (h : Header) (r : Request) :
  Method r = "PROPFIND" -> Path r = "/" ->
  let rb := capture next (newResponse h) r in
  code rb = StatusMultiStatus ->
  let w' := (quotaMiddleware s os next (newResponse h) r).1 in
  exists hdr,
    wroteHeader w' = Some (StatusMultiStatus, hdr) /\
    hdr !! "Content-Length" = Some [Itoa (Z.of_nat (length (written w')))] /\
    (Header_Get (Header_ rb) "Content-Type" = "" ->
       hdr !! "Content-Type" = Some ["text/xml; charset=utf-8"]) /\
    (Header_Get (Header_ rb) "Content-Type" <> "" ->
       hdr !! "Content-Type" = Header_ rb !! "Content-Type") /\
    (forall k, k <> "Content-Length" -> k <> "Content-Type" ->
       hdr !! k = Header_ rb !! k).
Proof.
  intros Hm Hp rb Hc w'. subst w'.
  rewrite (quotaMiddleware_root s os next h r Hm Hp). fold rb. rewrite Hc.
  cbn [Z.eqb negb StatusMultiStatus Pos.eqb].
  destruct (diskUsage s os) as [[free used] err].
  set (served := match err with None => injectQuota (body rb) free used
                           | Some _ => body rb end).
  set (h1 := Header_Set "Content-Length" (Itoa (Z.of_nat (length served))) (Header_ rb)).
  assert (Hget : Header_Get h1 "Content-Type" = Header_Get (Header_ rb) "Content-Type").
  { unfold Header_Get, h1, Header_Set. now rewrite lookup_insert_ne. }
  cbn [fst]. rewrite Hget.
  destruct (String.eqb_spec (Header_Get (Header_ rb) "Content-Type") "") as [He|Hne];
    eexists; (split; [reflexivity|]); cbn [written]; unfold h1, Header_Set.
  - split; [now rewrite lookup_insert_ne, lookup_insert_eq|].
    split; [intros _; now rewrite lookup_insert_eq|].
    split; [congruence|].
    intros k Hk1 Hk2. now rewrite !lookup_insert_ne.
  - split; [now rewrite lookup_insert_eq|].
    split; [congruence|].
    split; [intros _; now rewrite lookup_insert_ne|].
    intros k Hk1 Hk2. now rewrite lookup_insert_ne.
Qed.

(** C6.  On a PROPFIND of the root answered with status 207, when the
    usage computation returns an error, from the directory walk under a quota
    or from the file system otherwise, the middleware logs the warning and
    sends the captured status with the captured body, byte for byte what the
    inner handler wrote. *)
Theorem usage_error_fails_open (s : Server) (os : OS) (next : Handler) (h : Header)
    (r : Request) (err : error) :
  Method r = "PROPFIND" -> Path r = "/" ->
  let rb := capture next (newResponse h) r in
  code rb = StatusMultiStatus ->
  (0 < QuotaBytes s /\ (getDirUsedBytes os (DataDir s)).2 = Some err) \/
  (QuotaBytes s <= 0 /\
   (getDiskUsage os (let absPath := (filepath_Abs (DataDir s)).1 in
                     if String.eqb absPath "" then DataDir s else absPath)).2
   = Some err) ->
  let out := quotaMiddleware s os next (newResponse h) r in
  out.2 = [warnDiskUsage err] /\
  written out.1 = body rb /\
  body rb = bytes_written (next r) /\
  exists hdr, wroteHeader out.1 = Some (code rb, hdr).
Proof.
  intros Hm Hp rb Hc Herr out. apply diskUsage_error in Herr. subst out.
  rewrite (quotaMiddleware_root s os next h r Hm Hp). fold rb. rewrite Hc.
  cbn [Z.eqb negb StatusMultiStatus Pos.eqb].
  destruct (diskUsage s os) as [[free used] e]. cbn in Herr. subst e.
  cbn [fst snd written wroteHeader]. repeat split.
  - subst rb. now rewrite capture_newResponse.
  - now eexists.
Qed.

End Claims.

(** C5, as amended.  When the root cannot be examined, the computation
    returns zero, with the error unless it is "not exist".  Otherwise it
    returns the first error of a directory read that is not "not exist", at
    the root or below; there is none exactly when every directory of the
    tree was read or had vanished, and then the result is the sum of the
    sizes of the entries that are not directories and whose information could
    be read: directories count for nothing, and neither do entries whose
    information could not be read. *)
Theorem getDirUsedBytes_walk (os : server.OS) (dir : string) :
  (forall e, server.os_Lstat os dir = inl e ->
     server.getDirUsedBytes os dir = (0, if os_IsNotExist e then None else Some e)) /\
  (forall t, server.os_Lstat os dir = inr t ->
     (server.getDirUsedBytes os dir).2 = server.first_fatal t /\
     ((server.getDirUsedBytes os dir).2 = None <->
      Forall (fun e => os_IsNotExist e = true) (server.read_errors t)) /\
     (Forall (fun e => os_IsNotExist e = true) (server.read_errors t) ->
      server.getDirUsedBytes os dir = (server.sum_sizes t mod uint64_max, None))).
Proof.
  unfold server.getDirUsedBytes, server.WalkDir. split.
  - intros e ->. cbn. now destruct (os_IsNotExist e).
  - intros t ->. split; [apply walkDir_usage_error|]. split.
    + rewrite walkDir_usage_error. apply first_fatal_None.
    + intros Herr. rewrite walkDir_usage_total; [reflexivity|exact Herr|].
      split; reflexivity || discriminate.
Qed.

Section ServerExamples.
Import http server.

Lemma getDirUsedBytes_walk_witness :
  server.getDirUsedBytes standin.os4 "/srv/data" = (4, None).
Proof.
  apply (proj2 (getDirUsedBytes_walk standin.os4 "/srv/data") standin.tree4).
  - reflexivity.
  - cbn. repeat constructor.
Defined.

(** C5 as stated fails: the root can be read, one directory below it
    cannot, and the computation returns the error of that directory instead
    of counting it for nothing. *)
Lemma walk_aborts_on_unreadable_directory :
  server.os_Lstat standin.os_denied "/srv/data" = inr standin.tree_denied /\
  server.getDirUsedBytes standin.os_denied "/srv/data" = (5, Some ErrPermission).
Proof. split; reflexivity. Qed.

Lemma quota_clamp_witness :
  @server.diskUsage standin.filepath_unix standin.srv10 standin.os4 = (6, 4, None).
Proof.
  apply (@quota_clamp standin.filepath_unix standin.srv10 standin.os4 4).
  - cbn. split; reflexivity.
  - reflexivity.
Defined.

Lemma quota_passthrough_witness :
  @server.quotaMiddleware standin.filepath_unix standin.srv10 standin.os4
    standin.webdav _ _ (http.newResponse ∅) standin.get_file
  = (http.ServeHTTP standin.webdav (http.newResponse ∅) standin.get_file, []) /\
  http.written
    (@server.quotaMiddleware standin.filepath_unix standin.srv10 standin.os4
       standin.locked _ _ (http.newResponse ∅) standin.propfind_root).1
  = bytes "Locked".
Proof.
  split.
  - apply (proj1 (@quota_passthrough standin.filepath_unix standin.srv10 standin.os4
                    standin.webdav standin.get_file)).
    left. discriminate.
  - destruct (proj2 (@quota_passthrough standin.filepath_unix standin.srv10
                       standin.os4 standin.locked standin.propfind_root) ∅)
      as (Hout & Hbody & _).
    + reflexivity.
    + reflexivity.
    + vm_compute. discriminate.
    + rewrite Hout. exact Hbody.
Defined.

Lemma quota_injection_witness :
  written
    (@quotaMiddleware standin.filepath_unix standin.srv10 standin.os4
       standin.webdav _ _ (newResponse ∅) standin.propfind_root).1
  = take 97 (standin.listing "D")
    ++ bytes ("<D:quota-available-bytes>6</D:quota-available-bytes>"
              +:+ "<D:quota-used-bytes>4</D:quota-used-bytes>")
    ++ drop 97 (standin.listing "D").
Proof.
  destruct (@quota_injection standin.filepath_unix standin.srv10 standin.os4
              standin.webdav ∅ standin.propfind_root 6 4)
    as (_ & Hprefix & _ & _ & _ & _ & Hsent & _).
  - reflexivity.
  - reflexivity.
  - reflexivity.
  - reflexivity.
  - rewrite (Hsent 97%nat).
    + rewrite (Hprefix 15%nat (bytes "D")); [reflexivity| |].
      * eexists. split; [reflexivity|]. split; [discriminate|].
        repeat constructor.
      * apply no_ns_decl_before. vm_compute. reflexivity.
    + exists (bytes "D:prop"). eexists. split; [reflexivity|].
      split; [repeat constructor|]. now exists [].
    + apply no_prop_close_before. vm_compute. reflexivity.
Defined.

(** C3 as stated fails: a listing that binds [DAV:] to the prefix [d-1]
    declares the namespace and closes a [prop] element, yet neither
    expression matches, the prefix falls back to [D] and the body is sent as
    it is. *)
Lemma hyphenated_prefix_is_not_found :
  let body := standin.listing "d-1" in
  (exists rest, drop 17 body = bytes "xmlns:d-1" ++ eq_DAV ++ rest) /\
  (exists rest, drop 113 body = bytes "</d-1:prop>" ++ rest) /\
  local_name (bytes "d-1:prop") = bytes "prop" /\
  davPrefix body = bytes "D" /\
  injectQuota body 6 4 = body.
Proof.
  cbv zeta. repeat split; try (eexists; reflexivity); vm_compute; reflexivity.
Qed.

Lemma content_length_of_served_body_witness :
  exists hdr,
    http.wroteHeader
      (@server.quotaMiddleware standin.filepath_unix standin.srv10 standin.os4
         standin.webdav _ _ (http.newResponse ∅) standin.propfind_root).1
    = Some (207, hdr) /\
    hdr !! "Content-Length" = Some ["242"].
Proof.
  destruct (@content_length_of_served_body standin.filepath_unix standin.srv10
              standin.os4 standin.webdav ∅ standin.propfind_root)
    as (hdr & Hsent & Hlen & _).
  - reflexivity.
  - reflexivity.
  - reflexivity.
  - exists hdr. split; [exact Hsent|]. rewrite Hlen. vm_compute. reflexivity.
Defined.

Lemma usage_error_fails_open_witness :
  (@server.quotaMiddleware standin.filepath_unix standin.srv10 standin.os_denied
     standin.webdav _ _ (http.newResponse ∅) standin.propfind_root).2
  = ["WebDAV Warning: failed to get disk usage: permission denied"] /\
  http.written
    (@server.quotaMiddleware standin.filepath_unix standin.srv10 standin.os_denied
       standin.webdav _ _ (http.newResponse ∅) standin.propfind_root).1
  = standin.listing "D".
Proof.
  destruct (@usage_error_fails_open standin.filepath_unix standin.srv10
              standin.os_denied standin.webdav ∅ standin.propfind_root ErrPermission)
    as (Hlog & Hbody & _).
  - reflexivity.
  - reflexivity.
  - reflexivity.
  - left. split; reflexivity.
  - split; [exact Hlog|exact Hbody].
Defined.

(** The listing of a server that binds [DAV:] to the prefix [x] gets its two
    elements under [x]; a body without a declaration gets them under [D],
    before the first of its closing tags; a body without a closing [prop] tag
    is left alone. *)
Example injectQuota_prefix_x :
  string_of_list_ascii (injectQuota (standin.listing "x") 6 4) =
  string_of_list_ascii
    (take 97 (standin.listing "x")
     ++ bytes "<x:quota-available-bytes>6</x:quota-available-bytes>"
     ++ bytes "<x:quota-used-bytes>4</x:quota-used-bytes>"
     ++ drop 97 (standin.listing "x")).
Proof. vm_compute. reflexivity. Qed.

Example injectQuota_no_declaration :
  injectQuota (bytes "<multistatus><prop><a/></prop><prop></prop></multistatus>") 0 10
  = bytes ("<multistatus><prop><a/>"
           +:+ "<D:quota-available-bytes>0</D:quota-available-bytes>"
           +:+ "<D:quota-used-bytes>10</D:quota-used-bytes>"
           +:+ "</prop><prop></prop></multistatus>").
Proof. vm_compute. reflexivity. Qed.

Example injectQuota_no_closing_tag :
  injectQuota (bytes "<multistatus></multistatus>") 0 10
  = bytes "<multistatus></multistatus>".
Proof. vm_compute. reflexivity. Qed.

(** Without a quota the figures are those of the file system, and on
    systems without [Statfs] those of the stub. *)
Example diskUsage_without_quota :
  @diskUsage standin.filepath_unix standin.srv0
    {| GOOS_linux := true;
       os_Lstat := fun _ => inl ErrNotExist;
       syscall_Statfs := fun _ => inr {| Bavail := 3; Blocks := 10; Bsize := 4096 |} |}
  = (12288, 28672, None) /\
  @diskUsage standin.filepath_unix standin.srv0
    {| GOOS_linux := false;
       os_Lstat := fun _ => inl ErrNotExist;
       syscall_Statfs := fun _ => inl ErrNotExist |}
  = (107374182400, 0, None).
Proof. split; reflexivity. Qed.

End ServerExamples.

(* ===================================================================== *)
(** ** strconv.ParseUint *)
(* ===================================================================== *)

Section ParseUint.
Import strings strconv.

Ltac ascii_cases c := destruct c as [[|] [|] [|] [|] [|] [|] [|] [|]].

Lemma digit_range (c : ascii) (d : Z) : digit c = Some d -> 0 <= d <= 9.
Proof. ascii_cases c; vm_compute; intros [= <-]; split; discriminate. Qed.

Lemma decimal_from_cons (n : Z) (c : ascii) (s : list ascii) :
  decimal_from n (c :: s) = decimal_from (n * 10 + default 0 (digit c)) s.
Proof. reflexivity. Qed.

Lemma decimal_from_ge (n : Z) (s : list ascii) : 0 <= n -> n <= decimal_from n s.
Proof.
  revert n. induction s as [|c s IH]; intros n Hn; [cbn; lia|].
  rewrite decimal_from_cons.
  assert (Hd : 0 <= default 0 (digit c) <= 9).
  { destruct (digit c) as [d|] eqn:Hc; cbn; [now apply (digit_range c)|lia]. }
  specialize (IH (n * 10 + default 0 (digit c))). lia.
Qed.

Lemma ParseUint_loop_step (c : ascii) (d : Z) (s : list ascii) (n : Z) :
  digit c = Some d -> 0 <= n < uint64_max ->
  ParseUint_loop (c :: s) n =
    if n * 10 + d <? uint64_max then ParseUint_loop s (n * 10 + d) else inl ErrRange.
Proof.
  intros Hc Hn. pose proof (digit_range c d Hc) as Hd. cbn [ParseUint_loop].
  rewrite Hc. unfold maxUint64, mul64, add64, uint64_max in *.
  change (2 ^ 64) with 18446744073709551616 in *.
  change ((18446744073709551616 - 1) / 10 + 1) with 1844674407370955162.
  destruct (Z.leb_spec 1844674407370955162 n) as [Hcut|Hcut].
  - destruct (Z.ltb_spec (n * 10 + d) 18446744073709551616); [lia|reflexivity].
  - rewrite (Z.mod_small (n * 10)) by lia.
    destruct (Z.ltb_spec (n * 10 + d) 18446744073709551616) as [Hfit|Hover].
    + rewrite Z.mod_small by lia.
      destruct (Z.ltb_spec (n * 10 + d) (n * 10)); [lia|].
      destruct (Z.ltb_spec (18446744073709551616 - 1) (n * 10 + d)); [lia|reflexivity].
    + assert (Hwrap : (n * 10 + d) mod 18446744073709551616
                      = n * 10 + d - 18446744073709551616).
      { symmetry. apply (Z.mod_unique_pos _ _ 1); lia. }
      rewrite Hwrap.
      destruct (Z.ltb_spec (n * 10 + d - 18446744073709551616) (n * 10)); [reflexivity|lia].
Qed.

(** On a string of digits the loop returns the number they denote when it
    fits 64 bits, and a range error otherwise. *)
Lemma ParseUint_loop_digits (s : list ascii) (n : Z) :
  Forall (fun c => is_digit c = true) s -> 0 <= n < uint64_max ->
  ParseUint_loop s n =
    if decimal_from n s <? uint64_max then inr (decimal_from n s) else inl ErrRange.
Proof.
  intros Hs. revert n. induction Hs as [|c s Hc Hs IH]; intros n Hn.
  - cbn. destruct (Z.ltb_spec n uint64_max); [reflexivity|lia].
  - unfold is_digit in Hc. destruct (digit c) as [d|] eqn:Hd; [|discriminate].
    pose proof (digit_range c d Hd) as Hr.
    rewrite (ParseUint_loop_step c d s n Hd Hn), decimal_from_cons, Hd.
    change (default 0 (Some d)) with d.
    destruct (Z.ltb_spec (n * 10 + d) uint64_max) as [Hfit|Hover].
    + apply IH. lia.
    + pose proof (decimal_from_ge (n * 10 + d) s). 
      destruct (Z.ltb_spec (decimal_from (n * 10 + d) s) uint64_max); [lia|reflexivity].
Qed.

(** The loop succeeds on strings of digits only. *)
Lemma ParseUint_loop_inr (s : list ascii) (n m : Z) :
  ParseUint_loop s n = inr m -> Forall (fun c => is_digit c = true) s.
Proof.
  revert n. induction s as [|c s IH]; intros n; [constructor|].
  cbn [ParseUint_loop]. unfold is_digit.
  destruct (digit c) as [d|] eqn:Hd; [|discriminate].
  destruct (_ <=? n); [discriminate|].
  destruct (_ || _)%bool; [discriminate|]. intros Hm.
  constructor; [now rewrite Hd|]. eapply IH, Hm.
Qed.

Lemma ParseUint_digits (s : list ascii) :
  s <> [] -> Forall (fun c => is_digit c = true) s ->
  ParseUint s = if decimal s <? uint64_max then inr (decimal s) else inl ErrRange.
Proof.
  intros Hne Hs. destruct s as [|c s]; [congruence|]. unfold ParseUint.
  apply (ParseUint_loop_digits (c :: s) 0 Hs). split; reflexivity || discriminate.
Qed.

Lemma ParseUint_inr (s : list ascii) (m : Z) :
  ParseUint s = inr m ->
  s <> [] /\ Forall (fun c => is_digit c = true) s /\ m = decimal s /\ 0 <= m < uint64_max.
Proof.
  intros Hm. destruct s as [|c s]; [discriminate|]. unfold ParseUint in Hm.
  pose proof (ParseUint_loop_inr _ _ _ Hm) as Hs. split; [discriminate|].
  split; [exact Hs|].
  rewrite (ParseUint_loop_digits (c :: s) 0 Hs) in Hm by (split; reflexivity || discriminate).
  fold (decimal (c :: s)) in Hm.
  destruct (Z.ltb_spec (decimal (c :: s)) uint64_max); [|discriminate].
  injection Hm as <-. pose proof (decimal_from_ge 0 (c :: s)). unfold decimal in *. lia.
Qed.

End ParseUint.

(* ===================================================================== *)
(** ** strings: trimming, case and suffixes *)
(* ===================================================================== *)

Section Strings.
Import strings strconv cli.

Ltac ascii_cases c := destruct c as [[|] [|] [|] [|] [|] [|] [|] [|]].

Lemma upper_space (c : ascii) : asciiSpace (upper c) = asciiSpace c.
Proof. ascii_cases c; reflexivity. Qed.

Lemma upper_digit (c : ascii) : is_digit (upper c) = is_digit c.
Proof. ascii_cases c; reflexivity. Qed.

Lemma upper_fixes_digit (c : ascii) : is_digit c = true -> upper c = c.
Proof. ascii_cases c; vm_compute; congruence. Qed.

Lemma upper_fixes_space (c : ascii) : asciiSpace c = true -> upper c = c.
Proof. ascii_cases c; vm_compute; congruence. Qed.

Lemma digit_not_space (c : ascii) : is_digit c = true -> asciiSpace c = false.
Proof. ascii_cases c; vm_compute; congruence. Qed.

Lemma ToUpper_digits (s : list ascii) : digits s -> ToUpper s = s.
Proof.
  unfold ToUpper. induction 1 as [|c s Hc _ IH]; [reflexivity|].
  cbn. now rewrite (upper_fixes_digit c Hc), IH.
Qed.

Lemma ToUpper_blank (s : list ascii) : blank s -> ToUpper s = s.
Proof.
  unfold ToUpper. induction 1 as [|c s Hc _ IH]; [reflexivity|].
  cbn. now rewrite (upper_fixes_space c Hc), IH.
Qed.

Lemma TrimLeft_blank (w s : list ascii) : blank w -> TrimLeft (w ++ s) = TrimLeft s.
Proof. induction 1 as [|c w Hc _ IH]; [reflexivity|]. cbn. now rewrite Hc. Qed.

Lemma TrimLeft_head (c : ascii) (s : list ascii) :
  asciiSpace c = false -> TrimLeft (c :: s) = c :: s.
Proof. intros Hc. cbn. now rewrite Hc. Qed.

Lemma TrimLeft_split (s : list ascii) :
  exists w, blank w /\ s = w ++ TrimLeft s /\
            match TrimLeft s with c :: _ => asciiSpace c = false | [] => True end.
Proof.
  induction s as [|c s (w & Hw & Hs & Hhd)].
  - exists []. repeat split. constructor.
  - cbn. destruct (asciiSpace c) eqn:Hc.
    + exists (c :: w). repeat split; [now constructor|cbn; congruence|exact Hhd].
    + exists []. repeat split; [constructor|exact Hc].
Qed.

Lemma blank_rev (w : list ascii) : blank w -> blank (rev w).
Proof. unfold blank. rewrite !Forall_forall. intros H c Hc. apply H. now apply list_elem_of_In, in_rev, list_elem_of_In. Qed.

Lemma TrimRight_blank (s w : list ascii) : blank w -> TrimRight (s ++ w) = TrimRight s.
Proof.
  intros Hw. unfold TrimRight. rewrite rev_app_distr.
  now rewrite TrimLeft_blank by now apply blank_rev.
Qed.

Lemma TrimRight_last (s : list ascii) (c : ascii) :
  asciiSpace c = false -> TrimRight (s ++ [c]) = s ++ [c].
Proof.
  intros Hc. unfold TrimRight. rewrite rev_app_distr. cbn [rev app].
  rewrite TrimLeft_head by exact Hc. cbn [rev]. now rewrite rev_involutive.
Qed.

Lemma TrimRight_split (s : list ascii) :
  exists w, blank w /\ s = TrimRight s ++ w /\
            (TrimRight s = [] \/
             exists t c, TrimRight s = t ++ [c] /\ asciiSpace c = false).
Proof.
  destruct (TrimLeft_split (rev s)) as (w & Hw & Hs & Hhd).
  exists (rev w). split; [now apply blank_rev|]. unfold TrimRight. split.
  - rewrite <- rev_app_distr, <- Hs. now rewrite rev_involutive.
  - destruct (TrimLeft (rev s)) as [|c t]; [now left|].
    right. exists (rev t), c. split; [reflexivity|exact Hhd].
Qed.

(** Trimming a string that starts and ends with a byte that is no space,
    surrounded by spaces, gives that string. *)
Lemma TrimSpace_core (w1 w3 t : list ascii) (a z : ascii) :
  blank w1 -> blank w3 -> asciiSpace a = false -> asciiSpace z = false ->
  TrimSpace (w1 ++ (a :: t ++ [z]) ++ w3) = a :: t ++ [z].
Proof.
  intros H1 H3 Ha Hz. unfold TrimSpace.
  rewrite TrimLeft_blank by exact H1. cbn [app]. rewrite TrimLeft_head by exact Ha.
  change (a :: (t ++ [z]) ++ w3) with ((a :: t ++ [z]) ++ w3).
  rewrite TrimRight_blank by exact H3.
  exact (TrimRight_last (a :: t) z Hz).
Qed.

Lemma TrimSpace_single (w1 w3 : list ascii) (a : ascii) :
  blank w1 -> blank w3 -> asciiSpace a = false ->
  TrimSpace (w1 ++ [a] ++ w3) = [a].
Proof.
  intros H1 H3 Ha. unfold TrimSpace.
  rewrite TrimLeft_blank by exact H1. cbn [app]. rewrite TrimLeft_head by exact Ha.
  change (a :: w3) with ([a] ++ w3). rewrite TrimRight_blank by exact H3.
  exact (TrimRight_last [] a Ha).
Qed.

Lemma TrimSpace_blank (w : list ascii) : blank w -> TrimSpace w = [].
Proof.
  intros Hw. unfold TrimSpace.
  rewrite <- (app_nil_r w), TrimLeft_blank by exact Hw. reflexivity.
Qed.

(** What [TrimSpace] returns is the string without the spaces at its two
    ends, and is empty or starts and ends with a byte that is no space. *)
Lemma TrimSpace_split (s : list ascii) :
  exists w1 w3, blank w1 /\ blank w3 /\ s = w1 ++ TrimSpace s ++ w3 /\
    (TrimSpace s = [] \/
     exists a t t' z, TrimSpace s = a :: t /\ asciiSpace a = false /\
                      TrimSpace s = t' ++ [z] /\ asciiSpace z = false).
Proof.
  destruct (TrimLeft_split s) as (w1 & H1 & Hs & Hhd).
  destruct (TrimRight_split (TrimLeft s)) as (w3 & H3 & Hl & Hlast).
  fold (TrimSpace s) in Hl, Hlast.
  exists w1, w3. split; [exact H1|]. split; [exact H3|]. split; [congruence|].
  destruct Hlast as [Hnil|(t' & z & Hz & Hzs)]; [now left|]. right.
  rewrite Hl in Hhd. destruct (TrimSpace s) as [|a t] eqn:Ht.
  - now destruct t'.
  - exists a, t, t', z. repeat split; assumption.
Qed.

Lemma HasSuffix_true (s suf : list ascii) :
  HasSuffix s suf = true <-> suffix suf s.
Proof.
  unfold HasSuffix. rewrite andb_true_iff, Nat.leb_le, bool_decide_eq_true. split.
  - intros [Hlen Hd]. exists (take (length s - length suf) s).
    rewrite <- Hd at 2. now rewrite take_drop.
  - intros [k ->]. rewrite length_app. split; [lia|].
    replace (length k + length suf - length suf)%nat with (length k) by lia.
    now rewrite drop_app_length.
Qed.

Lemma HasSuffix_app (p t suf : list ascii) :
  (length suf <= length t)%nat -> HasSuffix (p ++ t) suf = HasSuffix t suf.
Proof.
  intros Hlen. unfold HasSuffix. rewrite length_app.
  replace (length suf <=? length p + length t)%nat with true
    by (symmetry; apply Nat.leb_le; lia).
  replace (length suf <=? length t)%nat with true by (symmetry; apply Nat.leb_le; lia).
  replace (length p + length t - length suf)%nat
    with (length p + (length t - length suf))%nat by lia.
  now rewrite drop_app_add.
Qed.

Lemma chop_snoc (p : list ascii) (c : ascii) : chop (p ++ [c]) = p.
Proof.
  unfold chop. rewrite length_app. cbn [length].
  replace (length p + 1 - 1)%nat with (length p) by lia. apply take_app_length.
Qed.

End Strings.

(* ===================================================================== *)
(** ** parseQuotaBytes *)
(* ===================================================================== *)

Section ParseQuota.
Import strings strconv cli.

Lemma TrimSpace_between (w1 w3 core : list ascii) :
  blank w1 -> blank w3 ->
  (exists a t, core = a :: t /\ asciiSpace a = false) ->
  (exists t z, core = t ++ [z] /\ asciiSpace z = false) ->
  TrimSpace (w1 ++ core ++ w3) = core.
Proof.
  intros H1 H3 (a & t & Hhead & Ha) (t' & z & Hlast & Hz). unfold TrimSpace.
  rewrite TrimLeft_blank by exact H1.
  rewrite Hhead. cbn [app]. rewrite TrimLeft_head by exact Ha.
  change (a :: t ++ w3) with ((a :: t) ++ w3). rewrite <- Hhead.
  rewrite TrimRight_blank by exact H3. rewrite Hlast. now apply TrimRight_last.
Qed.

Lemma digits_ends (ds : list ascii) :
  ds <> [] -> digits ds ->
  (exists a t, ds = a :: t /\ asciiSpace a = false) /\
  (exists t z, ds = t ++ [z] /\ asciiSpace z = false /\ is_digit z = true).
Proof.
  intros Hne Hds. split.
  - destruct ds as [|a t]; [congruence|]. exists a, t. split; [reflexivity|].
    apply digit_not_space. now apply Forall_cons in Hds as [? _].
  - destruct (rev ds) as [|z t] eqn:Hrev.
    + apply (f_equal (@rev ascii)) in Hrev. rewrite rev_involutive in Hrev. cbn in Hrev.
      congruence.
    + apply (f_equal (@rev ascii)) in Hrev. rewrite rev_involutive in Hrev. cbn in Hrev.
      exists (rev t), z. split; [exact Hrev|]. subst ds.
      apply Forall_app in Hds as [_ Hz]. apply Forall_cons in Hz as [Hz _].
      split; [now apply digit_not_space|exact Hz].
Qed.

Lemma HasSuffix_digits (ds : list ascii) (c : ascii) :
  digits ds -> is_digit c = false -> HasSuffix ds [c] = false.
Proof.
  intros Hds Hc. destruct (HasSuffix ds [c]) eqn:Hs; [|reflexivity].
  apply HasSuffix_true in Hs as [k ->]. apply Forall_app in Hds as [_ Hds].
  apply Forall_cons in Hds as [Hd _]. congruence.
Qed.

Lemma chop_snoc2 (p : list ascii) (c d : ascii) : chop (p ++ [c; d]) = p ++ [c].
Proof. change [c; d] with ([c] ++ [d]). rewrite app_assoc. apply chop_snoc. Qed.

Lemma HasSuffix_snoc (p : list ascii) (c d : ascii) :
  HasSuffix (p ++ [c]) [d] = Ascii.eqb c d.
Proof.
  rewrite HasSuffix_app by (cbn; lia). unfold HasSuffix. cbn.
  destruct (Ascii.eqb_spec c d) as [->|Hne].
  - now apply bool_decide_eq_true.
  - apply bool_decide_eq_false. congruence.
Qed.

Lemma HasSuffix_snoc2 (p : list ascii) (c1 c2 d1 d2 : ascii) :
  HasSuffix (p ++ [c1; c2]) [d1; d2] = (Ascii.eqb c1 d1 && Ascii.eqb c2 d2)%bool.
Proof.
  rewrite HasSuffix_app by (cbn; lia). unfold HasSuffix. cbn.
  destruct (Ascii.eqb_spec c1 d1) as [->|Hne]; destruct (Ascii.eqb_spec c2 d2) as [->|Hne'];
    cbn; (now apply bool_decide_eq_true) || (apply bool_decide_eq_false; congruence).
Qed.

Lemma HasSuffix_snoc21 (p : list ascii) (c1 c2 d : ascii) :
  HasSuffix (p ++ [c1; c2]) [d] = Ascii.eqb c2 d.
Proof.
  change [c1; c2] with ([c1] ++ [c2]). rewrite app_assoc. apply HasSuffix_snoc.
Qed.

Ltac suffix_tests :=
  repeat (progress
            (cbv zeta;
             repeat (rewrite HasSuffix_snoc2 || rewrite HasSuffix_snoc21
                     || rewrite HasSuffix_snoc || rewrite chop_snoc2
                     || rewrite chop_snoc);
             cbn [Ascii.eqb Bool.eqb andb orb])).

(** The body of [parseQuotaBytes] on a trimmed string whose upper case is
    [P] followed by a unit [U]. *)
Lemma parseQuotaBytes_unit (s P U : list ascii) (m : Z) :
  TrimSpace s <> [] ->
  ToUpper (TrimSpace s) = P ++ U ->
  unit_factor U = Some m ->
  (U = [] ->
   (HasSuffix P (bytes "B")
    && (HasSuffix P (bytes "GB") || HasSuffix P (bytes "MB")
        || HasSuffix P (bytes "KB")))%bool = false /\
   HasSuffix P (bytes "G") = false /\ HasSuffix P (bytes "M") = false /\
   HasSuffix P (bytes "K") = false) ->
  parseQuotaBytes s =
    match ParseUint (TrimSpace P) with inl _ => 0 | inr n => mul64 n m end.
Proof.
  intros Hne Hup HU Hends. unfold parseQuotaBytes.
  destruct (TrimSpace s) as [|a t] eqn:Ht; [congruence|]. rewrite Hup.
  unfold unit_factor in HU. cbn [bytes list_ascii_of_string] in *.
  repeat case_bool_decide; try discriminate; injection HU as <-;
    repeat match goal with H : _ \/ _ |- _ => destruct H end; subst U.
  - rewrite app_nil_r. destruct Hends as (HB & HG & HM & HK); [reflexivity|].
    cbv zeta. rewrite HB, HG, HM, HK. reflexivity.
  - suffix_tests. reflexivity.
  - suffix_tests. reflexivity.
  - suffix_tests. reflexivity.
  - suffix_tests. reflexivity.
  - suffix_tests. reflexivity.
  - suffix_tests. reflexivity.
Qed.

(** Every string splits into a unit that [parseQuotaBytes] strips and what
    is left. *)
Lemma unit_split (T : list ascii) :
  exists P U m, T = P ++ U /\ unit_factor U = Some m /\
    (U = [] ->
     (HasSuffix P (bytes "B")
      && (HasSuffix P (bytes "GB") || HasSuffix P (bytes "MB")
          || HasSuffix P (bytes "KB")))%bool = false /\
     HasSuffix P (bytes "G") = false /\ HasSuffix P (bytes "M") = false /\
     HasSuffix P (bytes "K") = false).
Proof.
  destruct (HasSuffix T (bytes "GB")) eqn:HGB.
  { apply HasSuffix_true in HGB as [k ->]. exists k, (bytes "GB"), (2 ^ 30).
    repeat split; discriminate. }
  destruct (HasSuffix T (bytes "MB")) eqn:HMB.
  { apply HasSuffix_true in HMB as [k ->]. exists k, (bytes "MB"), (2 ^ 20).
    repeat split; discriminate. }
  destruct (HasSuffix T (bytes "KB")) eqn:HKB.
  { apply HasSuffix_true in HKB as [k ->]. exists k, (bytes "KB"), (2 ^ 10).
    repeat split; discriminate. }
  destruct (HasSuffix T (bytes "G")) eqn:HG.
  { apply HasSuffix_true in HG as [k ->]. exists k, (bytes "G"), (2 ^ 30).
    repeat split; discriminate. }
  destruct (HasSuffix T (bytes "M")) eqn:HM.
  { apply HasSuffix_true in HM as [k ->]. exists k, (bytes "M"), (2 ^ 20).
    repeat split; discriminate. }
  destruct (HasSuffix T (bytes "K")) eqn:HK.
  { apply HasSuffix_true in HK as [k ->]. exists k, (bytes "K"), (2 ^ 10).
    repeat split; discriminate. }
  exists T, [], 1. rewrite app_nil_r, HGB, HMB, HKB, HG, HM, HK.
  repeat split. apply andb_false_r.
Qed.

Lemma unit_last (u : list ascii) (m : Z) :
  unit_factor (ToUpper u) = Some m -> u <> [] ->
  exists u' z, u = u' ++ [z] /\ asciiSpace z = false.
Proof.
  intros Hm Hne. unfold unit_factor, ToUpper in Hm.
  cbn [bytes list_ascii_of_string] in Hm.
  destruct u as [|c1 [|c2 [|c3 u]]]; [congruence| | |]; cbn [map] in Hm.
  - exists [], c1. split; [reflexivity|]. rewrite <- upper_space.
    repeat case_bool_decide; try discriminate;
      repeat match goal with H : _ \/ _ |- _ => destruct H end;
      try discriminate;
      match goal with H : [_] = _ |- _ => injection H as -> end; reflexivity.
  - exists [c1], c2. split; [reflexivity|]. rewrite <- upper_space.
    repeat case_bool_decide; try discriminate;
      repeat match goal with H : _ \/ _ |- _ => destruct H end;
      try discriminate;
      match goal with H : [_; _] = _ |- _ => injection H as _ -> end; reflexivity.
  - repeat case_bool_decide; try discriminate;
      repeat match goal with H : _ \/ _ |- _ => destruct H end; discriminate.
Qed.

Lemma mul64_1 (n : Z) : 0 <= n < uint64_max -> mul64 n 1 = n.
Proof. intros Hn. unfold mul64. rewrite Z.mul_1_r. now apply Z.mod_small. Qed.

Lemma ParseUint_TrimSpace_digits (ds w : list ascii) :
  ds <> [] -> digits ds -> blank w ->
  ParseUint (TrimSpace (ds ++ w)) =
    if decimal ds <? uint64_max then inr (decimal ds) else inl ErrRange.
Proof.
  intros Hne Hds Hw. destruct (digits_ends ds Hne Hds) as (Hhead & t & z & Hlast & Hz & _).
  assert (Htrim : TrimSpace (ds ++ w) = ds).
  { apply (TrimSpace_between [] w ds); [constructor|exact Hw|exact Hhead|now exists t, z]. }
  rewrite Htrim. now apply ParseUint_digits.
Qed.

Lemma map_app_inv {A B} (f : A -> B) (l : list A) (k1 k2 : list B) :
  map f l = k1 ++ k2 ->
  exists l1 l2, l = l1 ++ l2 /\ map f l1 = k1 /\ map f l2 = k2.
Proof.
  revert l. induction k1 as [|b k1 IH]; intros l Hl.
  - exists [], l. repeat split. exact Hl.
  - destruct l as [|a l]; [discriminate|]. cbn in Hl. injection Hl as Ha Hl.
    destruct (IH l Hl) as (l1 & l2 & -> & H1 & H2).
    exists (a :: l1), l2. repeat split; [cbn; congruence|exact H2].
Qed.

Lemma ToUpper_digits_inv (x : list ascii) : digits (ToUpper x) -> digits x.
Proof.
  unfold digits, ToUpper. rewrite Forall_map. intros H.
  eapply Forall_impl; [exact H|]. intros c. cbn. now rewrite upper_digit.
Qed.

Lemma ToUpper_blank_inv (x : list ascii) : blank (ToUpper x) -> blank x.
Proof.
  unfold blank, ToUpper. rewrite Forall_map. intros H.
  eapply Forall_impl; [exact H|]. intros c. cbn. now rewrite upper_space.
Qed.

(** The digits and the unit, between spaces: what is left for
    [ParseUint]. *)
Lemma parseQuotaBytes_split (w1 ds w2 u w3 : list ascii) (m : Z) :
  blank w1 -> blank w2 -> blank w3 -> ds <> [] -> digits ds ->
  unit_factor (ToUpper u) = Some m ->
  parseQuotaBytes (w1 ++ ds ++ w2 ++ u ++ w3) =
    match ParseUint (TrimSpace (ds ++ w2)) with inl _ => 0 | inr n => mul64 n m end.
Proof.
  intros H1 H2 H3 Hne Hds Hm.
  destruct (digits_ends ds Hne Hds) as (Hhead & t & z & Hlast & Hz & Hzd).
  destruct u as [|c u].
  - assert (Htrim : TrimSpace (w1 ++ ds ++ w2 ++ [] ++ w3) = ds).
    { cbn [app]. apply TrimSpace_between; [exact H1|now apply Forall_app|exact Hhead|].
      now exists t, z. }
    injection Hm as <-.
    rewrite (parseQuotaBytes_unit _ ds [] 1).
    + rewrite <- (app_nil_r ds) at 1.
      rewrite !ParseUint_TrimSpace_digits by (assumption || constructor). reflexivity.
    + rewrite Htrim. exact Hne.
    + rewrite Htrim, app_nil_r. now apply ToUpper_digits.
    + reflexivity.
    + intros _. cbn [bytes list_ascii_of_string].
      rewrite !(HasSuffix_digits ds) by (assumption || reflexivity). now repeat split.
  - destruct (unit_last (c :: u) m Hm) as (u' & z' & Hu & Hz'); [discriminate|].
    assert (Htrim : TrimSpace (w1 ++ ds ++ w2 ++ (c :: u) ++ w3) = ds ++ w2 ++ c :: u).
    { replace (w1 ++ ds ++ w2 ++ (c :: u) ++ w3)
        with (w1 ++ (ds ++ w2 ++ c :: u) ++ w3) by (now rewrite <- !app_assoc).
      apply TrimSpace_between; [exact H1|exact H3| |].
      - destruct Hhead as (a & t0 & -> & Ha). now exists a, (t0 ++ w2 ++ c :: u).
      - exists (ds ++ w2 ++ u'), z'. rewrite Hu, <- !app_assoc. now split. }
    rewrite (parseQuotaBytes_unit _ (ds ++ w2) (ToUpper (c :: u)) m).
    + reflexivity.
    + rewrite Htrim. now destruct ds.
    + rewrite Htrim. unfold ToUpper. rewrite !map_app, <- app_assoc.
      fold (ToUpper ds) (ToUpper w2). now rewrite ToUpper_digits, ToUpper_blank.
    + exact Hm.
    + discriminate.
Qed.

(** X1. A number and a unit.  On spaces, decimal digits denoting [n], spaces,
    one of the units K, M, G, KB, MB, GB in either case or no unit, and
    spaces, [parseQuotaBytes] returns [n] times the factor of the unit, cut
    to 64 bits: the multiplication is not checked.  When [n] itself does not
    fit 64 bits it returns 0. *)
Theorem parseQuotaBytes_number_unit (w1 ds w2 u w3 : list ascii) (m : Z) :
  blank w1 -> blank w2 -> blank w3 -> ds <> [] -> digits ds ->
  unit_factor (ToUpper u) = Some m ->
  parseQuotaBytes (w1 ++ ds ++ w2 ++ u ++ w3) =
    if decimal ds <? uint64_max then (decimal ds * m) mod uint64_max else 0.
Proof.
  intros H1 H2 H3 Hne Hds Hm.
  rewrite (parseQuotaBytes_split w1 ds w2 u w3 m) by assumption.
  rewrite ParseUint_TrimSpace_digits by assumption.
  destruct (decimal ds <? uint64_max); reflexivity.
Qed.

(** X2. What [parseQuotaBytes] accepts.  A flag of ASCII characters that
    yields a limit other than 0 is spaces, decimal digits, spaces, one of
    the units K, M, G, KB, MB, GB in either case or none, and spaces; the
    digits denote a number below 2^64 and the limit is that number times the
    factor of the unit, cut to 64 bits.  Every other flag yields 0, which
    the server reads as no limit. *)
Theorem parseQuotaBytes_nonzero (s : list ascii) :
  is_ascii s -> parseQuotaBytes s <> 0 ->
  exists w1 ds w2 u w3 m,
    s = w1 ++ ds ++ w2 ++ u ++ w3 /\
    blank w1 /\ blank w2 /\ blank w3 /\ ds <> [] /\ digits ds /\
    decimal ds < uint64_max /\ unit_factor (ToUpper u) = Some m /\
    parseQuotaBytes s = (decimal ds * m) mod uint64_max.
Proof.
  intros _ Hnz.
  destruct (TrimSpace_split s) as (w1 & w3 & H1 & H3 & Hs & _).
  destruct (unit_split (ToUpper (TrimSpace s))) as (P & U & m & HPU & Hm & Hends).
  assert (Hne : TrimSpace s <> []).
  { intros Hnil. apply Hnz. unfold parseQuotaBytes. now rewrite Hnil. }
  pose proof (parseQuotaBytes_unit s P U m Hne HPU Hm Hends) as Hval.
  destruct (ParseUint (TrimSpace P)) as [e|n] eqn:Hparse; [congruence|].
  apply ParseUint_inr in Hparse as (Hdne & Hds & Hn & Hrange).
  destruct (TrimSpace_split P) as (v1 & v2 & Hv1 & Hv2 & HP & _).
  apply map_app_inv in HPU as (p & u & HT & Hp & Hu).
  rewrite HP in Hp.
  apply map_app_inv in Hp as (a & bc & Hpa & Ha & Hbc).
  apply map_app_inv in Hbc as (b & c & Hbc' & Hb & Hc).
  fold (ToUpper a) in Ha. fold (ToUpper b) in Hb. fold (ToUpper c) in Hc.
  fold (ToUpper u) in Hu.
  assert (Hbd : digits b) by (apply ToUpper_digits_inv; now rewrite Hb).
  assert (Hbb : ToUpper b = b) by now apply ToUpper_digits.
  exists (w1 ++ a), b, c, u, w3, m.
  split; [rewrite Hs at 1; rewrite HT, Hpa, Hbc', <- !app_assoc; reflexivity|].
  split; [apply Forall_app; split; [exact H1|apply ToUpper_blank_inv; now rewrite Ha]|].
  split; [apply ToUpper_blank_inv; now rewrite Hc|].
  split; [exact H3|].
  split; [intros ->; apply Hdne; now rewrite <- Hb|].
  split; [exact Hbd|].
  rewrite <- Hbb, Hb, <- Hn. split; [lia|]. split; [now rewrite Hu|].
  exact Hval.
Qed.

Lemma parseQuotaBytes_number_unit_witness :
  blank (bytes " ") /\ blank [] /\ digits (bytes "512") /\
  unit_factor (ToUpper (bytes "mb")) = Some (2 ^ 20) /\
  parseQuotaBytes (bytes " 512mb") = 536870912.
Proof.
  assert (Hw : blank (bytes " ")) by (repeat constructor).
  assert (Hd : digits (bytes "512")) by (repeat constructor).
  split; [exact Hw|]. split; [constructor|]. split; [exact Hd|].
  split; [reflexivity|].
  exact (parseQuotaBytes_number_unit (bytes " ") (bytes "512") [] (bytes "mb") []
           (2 ^ 20) Hw ltac:(constructor) ltac:(constructor) ltac:(discriminate) Hd eq_refl).
Defined.

Lemma parseQuotaBytes_nonzero_witness :
  is_ascii (bytes "2G") /\ parseQuotaBytes (bytes "2G") <> 0 /\
  exists w1 ds w2 u w3 m,
    bytes "2G" = w1 ++ ds ++ w2 ++ u ++ w3 /\
    blank w1 /\ blank w2 /\ blank w3 /\ ds <> [] /\ digits ds /\
    decimal ds < uint64_max /\ unit_factor (ToUpper u) = Some m /\
    parseQuotaBytes (bytes "2G") = (decimal ds * m) mod uint64_max.
Proof.
  assert (Ha : is_ascii (bytes "2G")) by (repeat constructor; vm_compute; lia).
  assert (Hn : parseQuotaBytes (bytes "2G") <> 0) by (vm_compute; discriminate).
  split; [exact Ha|]. split; [exact Hn|].
  exact (parseQuotaBytes_nonzero (bytes "2G") Ha Hn).
Defined.

End ParseQuota.

(* ===================================================================== *)
(** ** The credential store: deletion, listing and other users *)
(* ===================================================================== *)

Section StoreOperations.
Import user cli.
Context `{!Bcrypt}.

Lemma Authenticate_lookup (u q : string) (s t : Store) :
  Users s !! u = Users t !! u -> Authenticate u q s = Authenticate u q t.
Proof. intros Hu. unfold Authenticate. now rewrite Hu. Qed.

(** X3. [Delete] removes one user and only that one.  After [Delete u],
    [Authenticate] refuses [u] with every password and answers for every
    other user what it answered before; the file path is kept; deleting a
    user that is not in the store leaves the store as it was, so a second
    [Delete u] changes nothing. *)
Theorem Delete_then_Authenticate (u : string) (s : Store) :
  (forall q, Authenticate u q (Delete u s) = false) /\
  (forall v q, v <> u -> Authenticate v q (Delete u s) = Authenticate v q s) /\
  filePath (Delete u s) = filePath s /\
  (Users s !! u = None -> Delete u s = s) /\
  Delete u (Delete u s) = Delete u s.
Proof.
  split; [|split; [|split; [|split]]].
  - intros q. apply Authenticate_absent. cbn. apply lookup_delete_eq.
  - intros v q Hv. apply Authenticate_lookup. cbn. now apply lookup_delete_ne.
  - reflexivity.
  - intros Hu. destruct s as [path m]. unfold Delete. cbn in *.
    now rewrite delete_id.
  - unfold Delete. cbn. f_equal. apply delete_id, lookup_delete_eq.
Qed.

(** X4. A successful [Add] touches one user.  When [Add u p] succeeds, the
    user was not in the store, the new store holds for [u] a record with the
    name [u], every other user has the record it had, so [Authenticate]
    answers for it as before, and the file path is kept. *)
Theorem Add_keeps_other_users (rnd : entropy) (u p : string) (s s' : Store) :
  Add rnd u p s = (None, s') ->
  Users s !! u = None /\
  (exists hash, bcrypt_GenerateFromPassword rnd p bcrypt_DefaultCost = inr hash /\
                Users s' !! u = Some {| Username := u; PasswordHash := hash |}) /\
  (forall v, v <> u -> Users s' !! v = Users s !! v) /\
  (forall v q, v <> u -> Authenticate v q s' = Authenticate v q s) /\
  filePath s' = filePath s.
Proof.
  unfold Add. destruct (Users s !! u) as [r|] eqn:Hu; [discriminate|].
  destruct (bcrypt_GenerateFromPassword rnd p bcrypt_DefaultCost) as [err|hash] eqn:Hgen;
    [discriminate|].
  intros [= <-]. split; [reflexivity|]. split; [|split; [|split]].
  - exists hash. split; [reflexivity|]. cbn. apply lookup_insert_eq.
  - intros v Hv. cbn. now apply lookup_insert_ne.
  - intros v q Hv. apply Authenticate_lookup. cbn. now apply lookup_insert_ne.
  - reflexivity.
Qed.

(** X5. [Add] and [Delete] undo each other.  Deleting a user that [Add]
    has just created gives back the store as it was before.  After
    [Delete u] the name [u] is free: [Add u p] on the store that [Delete]
    leaves never answers "already exists"; it succeeds when the hash
    generation does, and then holds what an [Add] that replaced the record of
    [u] would hold, and it returns the error of the hash generation
    otherwise. *)
Theorem Add_then_Delete (rnd : entropy) (u p : string) (s : Store) :
  (forall s', Add rnd u p s = (None, s') -> Delete u s' = s) /\
  (forall hash, bcrypt_GenerateFromPassword rnd p bcrypt_DefaultCost = inr hash ->
     Add rnd u p (Delete u s) =
       (None, {| filePath := filePath s;
                 Users := <[u := {| Username := u; PasswordHash := hash |}]> (Users s) |})) /\
  (forall e, bcrypt_GenerateFromPassword rnd p bcrypt_DefaultCost = inl e ->
     Add rnd u p (Delete u s) = (Some e, Delete u s)).
Proof.
  split; [|split].
  - unfold Add. destruct (Users s !! u) as [r|] eqn:Hu; [discriminate|].
    destruct (bcrypt_GenerateFromPassword rnd p bcrypt_DefaultCost) as [err|hash];
      [discriminate|].
    intros s' [= <-]. destruct s as [path m]. unfold Delete. cbn in *.
    now rewrite delete_insert_id.
  - intros hash Hgen. rewrite (Add_fresh rnd u p hash (Delete u s)).
    + cbn. now rewrite insert_delete_eq.
    + cbn. apply lookup_delete_eq.
    + exact Hgen.
  - intros e Hgen. unfold Add. cbn. now rewrite lookup_delete_eq, Hgen.
Qed.

Lemma fold_left_snoc {A} (l acc : list A) :
  fold_left (fun keys k => keys ++ [k]) l acc = acc ++ l.
Proof.
  revert acc. induction l as [|a l IH]; intros acc; cbn.
  - now rewrite app_nil_r.
  - rewrite IH, <- app_assoc. reflexivity.
Qed.

Lemma List_permutation (shuffle : list string -> list string) (s : Store) :
  (forall l, shuffle l ≡ₚ l) -> List shuffle s ≡ₚ (map_to_list (Users s)).*1.
Proof.
  intros Hsh. unfold List, range_keys. rewrite fold_left_snoc. cbn. apply Hsh.
Qed.

Lemma elem_of_keys (m : gmap string User) (u : string) :
  u ∈ (map_to_list m).*1 <-> is_Some (m !! u).
Proof.
  rewrite list_elem_of_fmap. split.
  - intros ([k r] & -> & Hin). apply elem_of_map_to_list in Hin. now exists r.
  - intros [r Hr]. exists (u, r). split; [reflexivity|]. now apply elem_of_map_to_list.
Qed.

(** X6. [List] names every user once.  Whatever the order in which the
    [range] visits the map, the list that [List] returns has no duplicates,
    as many elements as the store has users, and holds a name exactly when
    the store has a record for it; so a name that [Authenticate] accepts
    with some password is in the list. *)
Theorem List_names_each_user_once (shuffle : list string -> list string) (s : Store) :
  (forall l, shuffle l ≡ₚ l) ->
  NoDup (List shuffle s) /\
  length (List shuffle s) = size (Users s) /\
  (forall u, u ∈ List shuffle s <-> is_Some (Users s !! u)) /\
  (forall u q, Authenticate u q s = true -> u ∈ List shuffle s).
Proof.
  intros Hsh. pose proof (List_permutation shuffle s Hsh) as Hp.
  assert (Hin : forall u, u ∈ List shuffle s <-> is_Some (Users s !! u)).
  { intros u. rewrite Hp. apply elem_of_keys. }
  split; [|split; [|split]].
  - rewrite Hp. apply NoDup_fst_map_to_list.
  - rewrite Hp, length_fmap. apply length_map_to_list.
  - exact Hin.
  - intros u q Hq. apply Hin. unfold Authenticate in Hq.
    destruct (Users s !! u) as [r|]; [now exists r|discriminate].
Qed.

End StoreOperations.

(* ===================================================================== *)
(** ** The users file *)
(* ===================================================================== *)

Section UsersFile.
Import user cli.
Context `{!Bcrypt} `{!Json} `{!Filepath}.

Lemma NewStore_filePath (path : string) (fs : FS) (s : Store) :
  NewStore path fs = inr s -> filePath s = path.
Proof.
  unfold NewStore, load. cbn. destruct (os_ReadFile fs path) as [e|data].
  - destruct (os_IsNotExist e); [|discriminate]. now intros [= <-].
  - destruct (json_Unmarshal data ∅) as [m [e|]].
    + destruct (os_IsNotExist e); [|discriminate]. now intros [= <-].
    + now intros [= <-].
Qed.

Lemma os_ReadFile_not_exist (fs : FS) (path : string) (e : error) :
  os_ReadFile fs path = inl e -> os_IsNotExist e = true -> e = ErrNotExist.
Proof. intros _. now destruct e. Qed.

(** X7. What [NewStore] returns.  Provided the decoder's errors are not
    "file does not exist" errors: [NewStore] returns a store exactly when
    the file is missing, and then the store is empty, or the file can be read
    and decoded, and then the store holds what the decoder produced from the
    empty map; the store carries the path.  It returns an error, and no
    store, when the file cannot be read for another reason or cannot be
    decoded, and the error is that of the read or of the decoder. *)
Theorem NewStore_outcomes (path : string) (fs : FS) :
  (forall data m e, json_Unmarshal data ∅ = (m, Some e) -> os_IsNotExist e = false) ->
  match NewStore path fs with
  | inr s =>
      filePath s = path /\
      ((os_ReadFile fs path = inl ErrNotExist /\ Users s = ∅) \/
       (exists data, os_ReadFile fs path = inr data /\
                     json_Unmarshal data ∅ = (Users s, None)))
  | inl e =>
      (os_ReadFile fs path = inl e /\ os_IsNotExist e = false) \/
      (exists data m, os_ReadFile fs path = inr data /\
                      json_Unmarshal data ∅ = (m, Some e))
  end.
Proof.
  intros Hjson. unfold NewStore, load. cbn.
  destruct (os_ReadFile fs path) as [e|data] eqn:Hrd.
  - destruct (os_IsNotExist e) eqn:He.
    + split; [reflexivity|]. left. split; [|reflexivity].
      now rewrite (os_ReadFile_not_exist fs path e Hrd He).
    + left. now split.
  - destruct (json_Unmarshal data ∅) as [m [e|]] eqn:Hdec.
    + rewrite (Hjson data m e Hdec). right. now exists data, m.
    + split; [reflexivity|]. right. now exists data.
Qed.


End UsersFile.

(* ===================================================================== *)
(** ** The user commands *)
(* ===================================================================== *)

Section UserCommands.
Import user cli.
Context `{!Bcrypt} `{!Json} `{!Filepath} `{!Viper} `{!FilepathJoin}.

Lemma getUserStore_after_Save (fs fs' : FS) (s0 s : Store) :
  getUserStore fs = inr s0 -> filePath s = filePath s0 ->
  Save s fs = (None, fs') ->
  (forall data, json_MarshalIndent (Users s) = inr data ->
                json_Unmarshal data ∅ = (Users s, None)) ->
  getUserStore fs' = inr {| filePath := filePath s; Users := Users s |}.
Proof.
  intros Hs0 Hpath HSave Hcodec. unfold getUserStore in *.
  apply NewStore_filePath in Hs0. rewrite <- Hs0, <- Hpath.
  now apply (NewStore_reads_saved s fs fs').
Qed.

(** X9. [user add] reaches the next process.  When the users file loads,
    the name is free and the hash generation gives [hash], a [user add] that
    returns no error leaves files from which [getUserStore] loads the old
    mapping with the new record added: [Authenticate] then accepts for the
    new user the passwords that match [hash], and answers for every other
    user as it did on the old file.  The decoder is assumed to decode what
    the encoder wrote for this mapping. *)
Theorem userAdd_persists (rnd : entropy) (u p hash : string) (fs fs' : FS) (s0 : Store)
    (out : list string) :
  getUserStore fs = inr s0 ->
  Users s0 !! u = None ->
  bcrypt_GenerateFromPassword rnd p bcrypt_DefaultCost = inr hash ->
  let m := <[u := {| Username := u; PasswordHash := hash |}]> (Users s0) in
  (forall data, json_MarshalIndent m = inr data -> json_Unmarshal data ∅ = (m, None)) ->
  userAdd rnd u p fs = (None, fs', out) ->
  out = ["User " +:+ u +:+ " created successfully." +:+ newline] /\
  exists s1,
    getUserStore fs' = inr s1 /\ Users s1 = m /\
    (forall q, Authenticate u q s1 = true <-> bcrypt_CompareHashAndPassword hash q = None) /\
    (forall v q, v <> u -> Authenticate v q s1 = Authenticate v q s0).
Proof.
  intros Hs0 Hu Hgen m Hcodec Hrun. unfold userAdd in Hrun. rewrite Hs0 in Hrun.
  rewrite (Add_fresh rnd u p hash s0 Hu Hgen) in Hrun. fold m in Hrun.
  destruct (Save {| filePath := filePath s0; Users := m |} fs) as [[e|] fs1] eqn:HSave;
    [discriminate|].
  injection Hrun as <- <-. split; [reflexivity|].
  eexists. split.
  - apply (getUserStore_after_Save fs fs1 s0 {| filePath := filePath s0; Users := m |}
             Hs0 eq_refl HSave). exact Hcodec.
  - cbn [Users]. split; [reflexivity|]. split.
    + intros q. unfold Authenticate, m. cbn. rewrite lookup_insert_eq. cbn.
      destruct (bcrypt_CompareHashAndPassword hash q); split; congruence.
    + intros v q Hv. unfold Authenticate, m. cbn. now rewrite lookup_insert_ne.
Qed.

(** X10. [user add] does not replace a user.  When the users file holds a
    record for the name, [user add] returns the error "already exists",
    prints nothing and leaves every file as it was, whatever the password;
    so the next process authenticates that user as before. *)
Theorem userAdd_existing_user (rnd : entropy) (u p : string) (fs : FS) (s0 : Store) :
  getUserStore fs = inr s0 ->
  is_Some (Users s0 !! u) ->
  userAdd rnd u p fs = (Some (errAlreadyExists u), fs, []) /\
  getUserStore (userAdd rnd u p fs).1.2 = inr s0.
Proof.
  intros Hs0 [r Hr].
  assert (Hrun : userAdd rnd u p fs = (Some (errAlreadyExists u), fs, [])).
  { unfold userAdd. rewrite Hs0. unfold Add. now rewrite Hr. }
  split; [exact Hrun|]. now rewrite Hrun.
Qed.

(** X11. [user rm] reaches the next process, and does not mind a user that
    is not there.  When the users file loads, a [user rm] that returns no
    error prints that the user was removed "if existed" and leaves files
    from which [getUserStore] loads the old mapping without the name:
    [Authenticate] refuses the name with every password and answers for every
    other user as before.  When the name was not in the file, the mapping
    loaded is the old one.  The decoder is assumed to decode what the encoder
    wrote for this mapping. *)
Theorem userRm_persists (u : string) (fs fs' : FS) (s0 : Store) (out : list string) :
  getUserStore fs = inr s0 ->
  let m := delete u (Users s0) in
  (forall data, json_MarshalIndent m = inr data -> json_Unmarshal data ∅ = (m, None)) ->
  userRm u fs = (None, fs', out) ->
  out = ["User " +:+ u +:+ " removed (if existed)." +:+ newline] /\
  exists s1,
    getUserStore fs' = inr s1 /\ Users s1 = m /\
    (forall q, Authenticate u q s1 = false) /\
    (forall v q, v <> u -> Authenticate v q s1 = Authenticate v q s0) /\
    (Users s0 !! u = None -> s1 = s0).
Proof.
  intros Hs0 m Hcodec Hrun. unfold userRm in Hrun. rewrite Hs0 in Hrun.
  destruct (Save (Delete u s0) fs) as [[e|] fs1] eqn:HSave; [discriminate|].
  injection Hrun as <- <-. split; [reflexivity|].
  eexists. split.
  - apply (getUserStore_after_Save fs fs1 s0 (Delete u s0) Hs0 eq_refl HSave).
    exact Hcodec.
  - cbn [Users Delete filePath]. split; [reflexivity|]. split; [|split].
    + intros q. apply Authenticate_absent. cbn. apply lookup_delete_eq.
    + intros v q Hv. unfold Authenticate. cbn. now rewrite lookup_delete_ne.
    + intros Hu. destruct s0 as [path m0]. cbn in *. now rewrite delete_id.
Qed.

(** X12. What [user ls] prints.  When the users file loads, [user ls]
    returns no error; it prints [No users found.] when the file holds no
    user, and otherwise the heading [Users:] followed by one line for each
    user of the file, each user once, in the order of the [range]. *)
Theorem userLs_prints_each_user (shuffle : list string -> list string) (fs : FS)
    (s : Store) :
  (forall l, shuffle l ≡ₚ l) ->
  getUserStore fs = inr s ->
  exists keys,
    NoDup keys /\ (forall u, u ∈ keys <-> is_Some (Users s !! u)) /\
    userLs shuffle fs =
      (None, if bool_decide (Users s = ∅) then ["No users found." +:+ newline]
             else ("Users:" +:+ newline) :: map (fun u => "- " +:+ u +:+ newline) keys).
Proof.
  intros Hsh Hs. pose proof (List_permutation shuffle s Hsh) as Hp.
  exists (List shuffle s). split; [|split].
  - rewrite Hp. apply NoDup_fst_map_to_list.
  - intros u. rewrite Hp. apply elem_of_keys.
  - unfold userLs. rewrite Hs. cbv zeta.
    assert (Hlen : length (List shuffle s) = size (Users s)).
    { rewrite Hp, length_fmap. apply length_map_to_list. }
    rewrite Hlen. case_bool_decide as He.
    + rewrite He, map_size_empty. reflexivity.
    + destruct (size (Users s)) eqn:Hsize; [|reflexivity].
      now apply map_size_empty_inv in Hsize.
Qed.

End UserCommands.

(* ===================================================================== *)
(** ** The handler that [Start] installs *)
(* ===================================================================== *)

Section Handler.
Import user http server middleware.
Context `{!Bcrypt} `{!Credentials} `{!Mime} `{!Filepath}.

Lemma rejected_response (h : Header) :
  let hdr := <["X-Content-Type-Options" := ["nosniff"]]>
               (<["Content-Type" := ["text/plain; charset=utf-8"]]>
                  (delete "Content-Length" (<["Www-Authenticate" := [challenge]]> h))) in
  http_Error (setChallenge (newResponse h)) "Unauthorized" StatusUnauthorized =
  {| handlerHeader := hdr;
     wroteHeader := Some (StatusUnauthorized, hdr);
     written := bytes "Unauthorized" ++ [ascii_of_nat 10] |}.
Proof. reflexivity. Qed.

Lemma handler_rejects (s : Server) (store : Store) (os : OS) (webdavHandler : Handler)
    {W} `{!ResponseWriter W} (w : W) (r : Request) :
  (forall u p, BasicAuth r = Some (u, p) -> Authenticate u p store = false) ->
  handler s store os webdavHandler w r =
    (http_Error (setChallenge w) "Unauthorized" StatusUnauthorized,
     match BasicAuth r with
     | Some (u, _) => ["Auth failed for user: " +:+ u]
     | None => []
     end).
Proof.
  intros Hno. unfold handler, authMiddleware.
  destruct (BasicAuth r) as [[u p]|]; [|reflexivity].
  now rewrite (Hno u p eq_refl).
Qed.

Lemma rejected_headers (h : Header) :
  let hdr := <["X-Content-Type-Options" := ["nosniff"]]>
               (<["Content-Type" := ["text/plain; charset=utf-8"]]>
                  (delete "Content-Length" (<["Www-Authenticate" := [challenge]]> h))) in
  hdr !! "Www-Authenticate" = Some [challenge] /\
  hdr !! "Content-Type" = Some ["text/plain; charset=utf-8"] /\
  hdr !! "X-Content-Type-Options" = Some ["nosniff"] /\
  hdr !! "Content-Length" = None /\
  (forall k, k <> "Www-Authenticate" -> k <> "Content-Type" ->
     k <> "X-Content-Type-Options" -> k <> "Content-Length" -> hdr !! k = h !! k).
Proof.
  intros hdr. subst hdr. repeat split.
  - rewrite !lookup_insert_ne by discriminate.
    rewrite lookup_delete_ne by discriminate. apply lookup_insert_eq.
  - rewrite lookup_insert_ne by discriminate. apply lookup_insert_eq.
  - apply lookup_insert_eq.
  - rewrite !lookup_insert_ne by discriminate. apply lookup_delete_eq.
  - intros k Hk1 Hk2 Hk3 Hk4. rewrite !lookup_insert_ne by congruence.
    rewrite lookup_delete_ne by congruence. now rewrite lookup_insert_ne by congruence.
Qed.

(** X13. A request that does not authenticate gets the challenge and
    nothing of the share.  When the request carries no credentials, or
    credentials that [Authenticate] refuses, the client receives status 401
    with the header [Www-Authenticate] set to the Basic challenge of the
    realm, a plain-text content type, no [Content-Length] left in the header
    map, and the body [Unauthorized] followed by a line feed.  The log gets the user name
    that was tried and never the password.  The answer is the same for every
    server configuration, file tree and WebDAV handler: none of them is
    consulted. *)
Theorem unauthenticated_request_is_challenged (s : Server) (store : Store) (os : OS)
    (webdavHandler : Handler) (h : Header) (r : Request) :
  (forall u p, BasicAuth r = Some (u, p) -> Authenticate u p store = false) ->
  let out := handler s store os webdavHandler (newResponse h) r in
  (exists hdr,
     wroteHeader out.1 = Some (StatusUnauthorized, hdr) /\
     hdr !! "Www-Authenticate" = Some [challenge] /\
     hdr !! "Content-Type" = Some ["text/plain; charset=utf-8"] /\
     hdr !! "X-Content-Type-Options" = Some ["nosniff"] /\
     hdr !! "Content-Length" = None /\
     (forall k, k <> "Www-Authenticate" -> k <> "Content-Type" ->
        k <> "X-Content-Type-Options" -> k <> "Content-Length" -> hdr !! k = h !! k)) /\
  written out.1 = bytes "Unauthorized" ++ [ascii_of_nat 10] /\
  out.2 = match BasicAuth r with
          | Some (u, _) => ["Auth failed for user: " +:+ u]
          | None => []
          end /\
  (forall s' os' webdavHandler',
     handler s' store os' webdavHandler' (newResponse h) r = out).
Proof.
  intros Hno out. subst out. rewrite (handler_rejects s store os webdavHandler _ r Hno).
  rewrite rejected_response. cbn [fst snd wroteHeader written].
  split; [|split; [reflexivity|split; [reflexivity|]]].
  - eexists. split; [reflexivity|]. apply rejected_headers.
  - intros s' os' webdavHandler'.
    rewrite (handler_rejects s' store os' webdavHandler' _ r Hno).
    now rewrite rejected_response.
Qed.

(** X14. Without users the server refuses every request, as the warning
    of the [server] command says: with an empty store, every request, with
    or without credentials, is answered with status 401 and the body
    [Unauthorized]. *)
Theorem no_users_no_access (s : Server) (store : Store) (os : OS)
    (webdavHandler : Handler) (h : Header) (r : Request) :
  Users store = ∅ ->
  let out := handler s store os webdavHandler (newResponse h) r in
  (exists hdr, wroteHeader out.1 = Some (StatusUnauthorized, hdr)) /\
  written out.1 = bytes "Unauthorized" ++ [ascii_of_nat 10].
Proof.
  intros Hempty out. subst out.
  rewrite (handler_rejects s store os webdavHandler _ r).
  - rewrite rejected_response. split; [now eexists|reflexivity].
  - intros u p _. apply Authenticate_absent. rewrite Hempty. apply lookup_empty.
Qed.

Lemma bytes_app (a b : string) : bytes (a +:+ b) = bytes a ++ bytes b.
Proof.
  unfold bytes. induction a as [|c a IH]; [reflexivity|].
  change (String c a +:+ b) with (String c (a +:+ b)). cbn. now rewrite IH.
Qed.

Lemma Ext_trailing_slash (d : string) : filepath_Ext (d +:+ "/") = "".
Proof.
  unfold filepath_Ext. rewrite bytes_app. cbn [bytes list_ascii_of_string].
  rewrite rev_app_distr. reflexivity.
Qed.

(** X15. On a directory the type hint adds nothing.  For a request that
    authenticates and whose path ends in a slash, as the root does, the
    handler that [Start] installs answers what the quota middleware answers
    on the same writer, provided the type tables give no type for the empty
    extension: what was shown of the quota middleware holds for the whole
    chain. *)
Theorem handler_on_directory (s : Server) (store : Store) (os : OS)
    (webdavHandler : Handler) {W} `{!ResponseWriter W} (w : W) (r : Request)
    (u p d : string) :
  BasicAuth r = Some (u, p) -> Authenticate u p store = true ->
  Path r = d +:+ "/" -> mime_TypeByExtension "" = "" ->
  handler s store os webdavHandler w r = quotaMiddleware s os webdavHandler w r.
Proof.
  intros Hcred Hauth Hpath Hmime. unfold handler, authMiddleware, mimeMiddleware.
  rewrite Hcred, Hauth. cbn [negb]. rewrite Hpath, Ext_trailing_slash, Hmime.
  reflexivity.
Qed.

Lemma calls_headers (fs : list (Header -> Header)) (h : Header) :
  fold_left (fun w c => do_call c w) (map CallHeader fs) (newResponse h)
  = newResponse (fold_left (fun h f => f h) fs h).
Proof. revert h. induction fs as [|f fs IH]; intros h; [reflexivity|]. cbn. apply IH. Qed.

Lemma calls_writes (chunks : list (list ascii)) (w : response) :
  is_Some (wroteHeader w) ->
  fold_left (fun w c => do_call c w) (map CallWrite chunks) w
  = {| handlerHeader := handlerHeader w; wroteHeader := wroteHeader w;
       written := written w ++ concat chunks |}.
Proof.
  revert w. induction chunks as [|b chunks IH]; intros w [x Hx].
  - cbn. rewrite app_nil_r. now destruct w.
  - cbn [map fold_left do_call]. rewrite IH.
    + cbn. unfold response_Write, response_WriteHeader. rewrite Hx. cbn.
      now rewrite Hx, <- app_assoc.
    + cbn. unfold response_Write, response_WriteHeader. rewrite Hx. cbn. now exists x.
Qed.

Lemma calls_writes_finish (chunks : list (list ascii)) (h : Header) :
  finishRequest (fold_left (fun w c => do_call c w) (map CallWrite chunks) (newResponse h))
  = {| handlerHeader := h; wroteHeader := Some (StatusOK, h); written := concat chunks |}.
Proof.
  destruct chunks as [|b chunks]; [reflexivity|].
  cbn [map fold_left do_call]. rewrite calls_writes by (cbn; now eexists).
  reflexivity.
Qed.

Lemma orderly_header_changes fs status chunks (h : Header) :
  header_changes (orderly fs status chunks) h = fold_left (fun h f => f h) fs h.
Proof.
  unfold header_changes, orderly. rewrite !fold_left_app.
  assert (Hw : forall h, fold_left (fun h c => match c with CallHeader f => f h | _ => h end)
                           (map CallWrite chunks) h = h).
  { induction chunks as [|b chunks IH]; intros h0; [reflexivity|]. cbn. apply IH. }
  rewrite Hw. destruct status; cbn [fold_left];
    (revert h; induction fs as [|f fs IH]; intros h; [reflexivity|]; cbn; apply IH).
Qed.

Lemma orderly_bytes_written fs status chunks :
  bytes_written (orderly fs status chunks) = concat chunks.
Proof.
  unfold bytes_written, orderly. rewrite !map_app, !concat_app.
  assert (Hf : concat (map (fun c => match c with CallWrite b => b | _ => [] end)
                         (map CallHeader fs)) = []).
  { induction fs as [|f fs IH]; [reflexivity|]. cbn. exact IH. }
  assert (Hc : map (fun c => match c with CallWrite b => b | _ => [] end)
                 (map CallWrite chunks) = chunks).
  { induction chunks as [|b chunks IH]; [reflexivity|]. cbn. now rewrite IH. }
  rewrite Hf, Hc. now destruct status.
Qed.

Lemma orderly_status_requested fs status chunks (dflt : Z) :
  status_requested dflt (orderly fs status chunks) = default dflt status.
Proof.
  unfold status_requested, orderly. rewrite !fold_left_app.
  assert (Hf : forall d, fold_left (fun st c => match c with CallWriteHeader x => x | _ => st end)
                           (map CallHeader fs) d = d).
  { induction fs as [|f fs IH]; intros d; [reflexivity|]. cbn. apply IH. }
  assert (Hc : forall d, fold_left (fun st c => match c with CallWriteHeader x => x | _ => st end)
                           (map CallWrite chunks) d = d).
  { induction chunks as [|b chunks IH]; intros d; [reflexivity|]. cbn. apply IH. }
  rewrite Hf, Hc. now destruct status.
Qed.

Lemma orderly_served fs status chunks (h : Header) :
  let h' := fold_left (fun h f => f h) fs h in
  finishRequest (fold_left (fun w c => do_call c w) (orderly fs status chunks) (newResponse h))
  = {| handlerHeader := h'; wroteHeader := Some (default StatusOK status, h');
       written := concat chunks |}.
Proof.
  intros h'. unfold orderly. rewrite !fold_left_app, calls_headers. fold h'.
  destruct status as [c|].
  - cbn [fold_left do_call]. rewrite calls_writes by (cbn; now eexists). reflexivity.
  - cbn [fold_left]. apply calls_writes_finish.
Qed.

(** X16. The quota middleware is transparent for a handler that sets its
    headers first, then at most one status, then writes the body.  When such
    a handler answers a request that is not a PROPFIND of the root, or
    answers one with a status other than 207, the client receives, once the
    request is finished, exactly what it would receive without the
    middleware: the same status, the same headers and the same body; and
    nothing is logged. *)
Theorem quotaMiddleware_transparent (s : Server) (os : OS) (next : Handler)
    (h : Header) (r : Request) (fs : list (Header -> Header)) (status : option Z)
    (chunks : list (list ascii)) :
  next r = orderly fs status chunks ->
  (Method r = "PROPFIND" -> Path r = "/" -> status <> Some StatusMultiStatus) ->
  finishRequest (quotaMiddleware s os next (newResponse h) r).1
  = finishRequest (ServeHTTP next (newResponse h) r) /\
  (quotaMiddleware s os next (newResponse h) r).2 = [].
Proof.
  intros Hnext Hstatus.
  destruct (String.eqb_spec (Method r) "PROPFIND") as [Hm|Hm];
    [destruct (String.eqb_spec (Path r) "/") as [Hp|Hp]|].
  - pose proof (quotaMiddleware_root s os next h r Hm Hp) as Hroot. cbv zeta in Hroot.
    rewrite capture_newResponse in Hroot. cbn [code body Header_ ResponseWriter_] in Hroot.
    rewrite Hnext in Hroot.
    rewrite orderly_status_requested, orderly_bytes_written in Hroot.
    assert (Hc : negb (default StatusOK status =? StatusMultiStatus) = true).
    { apply negb_true_iff, Z.eqb_neq. specialize (Hstatus Hm Hp).
      destruct status as [c|]; cbn; [congruence|discriminate]. }
    rewrite Hc in Hroot. rewrite Hroot. cbn [fst snd]. split; [|reflexivity].
    unfold ServeHTTP. rewrite Hnext, orderly_served.
    cbn [responseBuffer_ResponseWriter Header_ response_ResponseWriter ResponseWriter_
           handlerHeader newResponse].
    now rewrite orderly_header_changes.
  - rewrite quotaMiddleware_other by now right. now split.
  - rewrite quotaMiddleware_other by now left. now split.
Qed.


End Handler.

(* ===================================================================== *)
(** ** The figures the server reports *)
(* ===================================================================== *)

Section Figures.
Import strings strconv cli user http server.
Context `{!Json} `{!Filepath} `{!Viper} `{!FilepathJoin}.

Lemma decimal_nonneg (ds : list ascii) : 0 <= decimal ds.
Proof. apply (decimal_from_ge 0 ds). reflexivity. Qed.

(** X18. From the flag to the listing.  When the [quota] setting is a
    number [n] followed by a unit of factor [m], with [n * m] positive and
    below 2^64, the server that the [server] command builds, once the user
    store has loaded, has the quota [n * m]; and when the walk of its data
    directory finds [d] bytes, the figures for the listing of the root are
    [min d (n * m)] used and the rest of the quota free. *)
Theorem quota_flag_is_reported (fs : FS) (srv : Server) (store : Store) (os : OS)
    (ds u : list ascii) (m d : Z) :
  serverSetup fs = inr (srv, store) ->
  bytes (viper_GetString "quota") = ds ++ u ->
  ds <> [] -> digits ds -> unit_factor (ToUpper u) = Some m ->
  0 < decimal ds * m < uint64_max ->
  getDirUsedBytes os (DataDir srv) = (d, None) ->
  let q := decimal ds * m in
  QuotaBytes srv = q /\
  diskUsage srv os = (q - Z.min d q, Z.min d q, None).
Proof.
  intros Hsetup Hflag Hne Hds Hm Hq Hd q.
  assert (HQ : QuotaBytes srv = q).
  { unfold serverSetup in Hsetup. destruct (filepath_Abs _) as [absDataDir e].
    destruct (getUserStore fs) as [err|store0]; [discriminate|].
    injection Hsetup as <- _. cbn. rewrite Hflag.
    pose proof (parseQuotaBytes_split [] ds [] u [] m) as Hval.
    cbn [app] in Hval. rewrite !app_nil_r in Hval.
    rewrite Hval by (assumption || constructor).
    rewrite <- (app_nil_r ds) at 1.
    rewrite ParseUint_TrimSpace_digits by (assumption || constructor).
    assert (Hm1 : 1 <= m).
    { unfold unit_factor in Hm. repeat case_bool_decide; try discriminate;
        injection Hm as <-; lia. }
    pose proof (decimal_nonneg ds).
    destruct (Z.ltb_spec (decimal ds) uint64_max) as [_|Hge]; [|nia].
    unfold mul64. apply Z.mod_small. lia. }
  split; [exact HQ|]. rewrite <- HQ. apply diskUsage_quota; [|exact Hd].
  rewrite HQ. exact Hq.
Qed.

(** X19. Without a quota the figures are those of the file system.  With a
    quota of 0, on Linux, when [Statfs] answers for the data directory, made
    absolute when that gives a path, the server reports the blocks available
    to unprivileged users as free and all other blocks of the file system as
    used, each times the block size: free and used add up to the size of the
    file system.  An error of [filepath.Abs] is ignored.  The counts are
    assumed to be those of a file system: no more blocks available than
    there are, a block size that is not negative, and a size that fits 64
    bits. *)
Theorem filesystem_figures_without_quota (s : Server) (os : OS) (st : Statfs_t) :
  QuotaBytes s = 0 -> GOOS_linux os = true ->
  syscall_Statfs os (let absPath := (filepath_Abs (DataDir s)).1 in
                     if String.eqb absPath "" then DataDir s else absPath) = inr st ->
  0 <= Bavail st <= Blocks st -> 0 <= Bsize st < uint64_max ->
  Blocks st * Bsize st < uint64_max ->
  let free := Bavail st * Bsize st in
  let used := (Blocks st - Bavail st) * Bsize st in
  diskUsage s os = (free, used, None) /\ free + used = Blocks st * Bsize st.
Proof.
  intros HQ Hlinux Hst Hav Hbs Htotal free used. split; [|unfold free, used; lia].
  unfold diskUsage. rewrite HQ. cbn [Z.ltb Z.compare].
  destruct (filepath_Abs (DataDir s)) as [absPath e]. cbn [fst] in Hst.
  unfold getDiskUsage. rewrite Hlinux, Hst. unfold mul64, sub64, to_uint64.
  assert (Hb : Bsize st mod uint64_max = Bsize st) by (apply Z.mod_small; lia).
  rewrite Hb.
  assert (Hf : (Bavail st * Bsize st) mod uint64_max = Bavail st * Bsize st)
    by (apply Z.mod_small; nia).
  assert (Ht : (Blocks st * Bsize st) mod uint64_max = Blocks st * Bsize st)
    by (apply Z.mod_small; nia).
  rewrite Hf, Ht. do 2 f_equal. unfold used.
  replace (Blocks st * Bsize st - Bavail st * Bsize st)
    with ((Blocks st - Bavail st) * Bsize st) by lia.
  apply Z.mod_small. nia.
Qed.

End Figures.

(* ===================================================================== *)
(** ** The log of the WebDAV handler *)
(* ===================================================================== *)

Section WebDAVLog.
Import strings http middleware.

Lemma elem_of_rev {A} (x : A) (l : list A) : x ∈ rev l <-> x ∈ l.
Proof. rewrite !list_elem_of_In. symmetry. apply in_rev. Qed.

Lemma strip_slashes_slashes (slashes l : list ascii) :
  Forall (eq "/"%char) slashes -> strip_slashes (slashes ++ l) = strip_slashes l.
Proof.
  induction 1 as [|c slashes <- _ IH]; [reflexivity|]. cbn [app strip_slashes].
  exact IH.
Qed.

Lemma last_element_app (l rest acc : list ascii) :
  "/"%char ∉ l -> last_element (l ++ rest) acc = last_element rest (rev l ++ acc).
Proof.
  revert acc. induction l as [|c l IH]; intros acc Hl; [reflexivity|].
  cbn [app last_element]. destruct (Ascii.eqb_spec c "/") as [->|Hc].
  - exfalso. apply Hl. now left.
  - rewrite IH by (intros Hin; apply Hl; now right).
    cbn [rev]. now rewrite <- app_assoc.
Qed.

Lemma filepath_Base_last (dir name slashes : list ascii) :
  dir = [] \/ (exists d, dir = d ++ ["/"%char]) ->
  name <> [] -> "/"%char ∉ name -> Forall (eq "/"%char) slashes ->
  filepath_Base (dir ++ name ++ slashes) = name.
Proof.
  intros Hdir Hne Hname Hsl. unfold filepath_Base.
  destruct (dir ++ name ++ slashes) as [|c0 l0] eqn:Hpath.
  { destruct dir; [destruct name; [congruence|discriminate]|discriminate]. }
  rewrite <- Hpath. clear c0 l0 Hpath.
  rewrite !rev_app_distr, <- app_assoc.
  rewrite strip_slashes_slashes by (apply Forall_rev; exact Hsl).
  assert (Hstrip : strip_slashes (rev name ++ rev dir) = rev name ++ rev dir).
  { destruct (rev name) as [|c l] eqn:Hrev.
    - apply (f_equal (@rev ascii)) in Hrev. rewrite rev_involutive in Hrev. cbn in Hrev.
      congruence.
    - cbn [app strip_slashes]. destruct (Ascii.eqb_spec c "/") as [->|Hc]; [|reflexivity].
      exfalso. apply Hname. apply (proj1 (elem_of_rev _ _)). rewrite Hrev. now left. }
  rewrite Hstrip. rewrite last_element_app.
  - rewrite rev_involutive, app_nil_r.
    assert (Hlast : last_element (rev dir) name = name).
    { destruct Hdir as [->|[d ->]]; [reflexivity|].
      rewrite rev_app_distr. reflexivity. }
    rewrite Hlast. destruct name; [congruence|reflexivity].
  - intros Hin. apply Hname. exact (proj1 (elem_of_rev _ _) Hin).
Qed.

(** X20. Which errors the WebDAV log leaves out.  For a request whose path
    has the last element [name], of ASCII characters, behind any directory
    and before any trailing slashes: a "does not exist" error is left out of
    the log exactly when [name] is, in any mix of upper and lower case, one
    of [desktop.ini], [autorun.inf], [thumbs.db] and [folder.jpg]; every
    other error is logged, with the method, the path and the error; and
    nothing is logged when there is no error. *)
Theorem Logger_leaves_out_noise (r : Request) (err : error)
    (dir name slashes : list ascii) :
  bytes (Path r) = dir ++ name ++ slashes ->
  dir = [] \/ (exists d, dir = d ++ ["/"%char]) ->
  name <> [] -> "/"%char ∉ name -> is_ascii name -> Forall (eq "/"%char) slashes ->
  Logger r None = [] /\
  (Logger r (Some err) = [] <-> os_IsNotExist err = true /\ ToLower name ∈ noise) /\
  (Logger r (Some err) <> [] ->
   Logger r (Some err)
   = ["WebDAV Error: " +:+ Method r +:+ " " +:+ Path r +:+ ": " +:+ Error err]).
Proof.
  intros Hpath Hdir Hne Hname _ Hsl. split; [reflexivity|].
  unfold Logger. rewrite Hpath, (filepath_Base_last dir name slashes) by assumption.
  destruct (os_IsNotExist err); cbn [andb].
  - case_bool_decide as Hin; split.
    + now split.
    + congruence.
    + split; [discriminate|]. intros [_ ?]. contradiction.
    + reflexivity.
  - split; [|reflexivity]. split; [discriminate|]. intros [? _]. discriminate.
Qed.

End WebDAVLog.

(* ===================================================================== *)
(** ** The properties above on the stand-ins *)
(* ===================================================================== *)

Section MoreExamples.
Import strings strconv cli user http server middleware.
#[local] Existing Instance standin.bcrypt72.
#[local] Existing Instance standin.json_plain.
#[local] Existing Instance standin.filepath_unix.
#[local] Existing Instance standin_cli.viper_etc.
#[local] Existing Instance standin_cli.join_unix.
#[local] Existing Instance standin_cli.mime_table.

Lemma json_plain_errors (data : list ascii) (m : gmap string User) (e : error) :
  json_Unmarshal data ∅ = (m, Some e) -> os_IsNotExist e = false.
Proof.
  cbn. unfold standin.unmarshal.
  destruct (standin.parse_object standin.parse_user data) as [[members rest]|].
  - destruct (standin.skip_space rest); [discriminate|]. now intros [= _ <-].
  - now intros [= _ <-].
Qed.

Lemma json_plain_codec (m : gmap string User) (data : list ascii) :
  json_MarshalIndent m = inr data -> json_Unmarshal data ∅ = (m, None).
Proof.
  intros Hdata. change (inr (standin.marshal m) = @inr error _ data) in Hdata.
  apply (inj inr) in Hdata. rewrite <- Hdata. apply unmarshal_marshal.
Qed.

Lemma getUserStore_disk2 : getUserStore standin_cli.disk2 = inr standin.store2.
Proof. vm_compute. reflexivity. Qed.

Lemma Add_keeps_other_users_witness :
  let s' := (Add tt "bob" "secret" standin.store2).2 in
  Add tt "bob" "secret" standin.store2 = (None, s') /\
  forall v q, v <> "bob" -> Authenticate v q s' = Authenticate v q standin.store2.
Proof.
  intros s'.
  assert (HAdd : Add tt "bob" "secret" standin.store2 = (None, s')) by reflexivity.
  split; [exact HAdd|].
  exact (proj1 (proj2 (proj2 (proj2
           (Add_keeps_other_users (tt : @entropy standin.bcrypt72) "bob" "secret" standin.store2 s' HAdd))))).
Defined.

Lemma List_names_each_user_once_witness :
  (forall l : list string, rev l ≡ₚ l) /\
  NoDup (List (@rev string) standin.store2) /\
  length (List (@rev string) standin.store2) = 2%nat.
Proof.
  assert (Hrev : forall l : list string, rev l ≡ₚ l)
    by (intros l; symmetry; apply Permutation_rev).
  split; [exact Hrev|].
  destruct (List_names_each_user_once (@rev string) standin.store2 Hrev)
    as (Hnd & Hlen & _).
  split; [exact Hnd|]. rewrite Hlen. reflexivity.
Defined.

Lemma NewStore_outcomes_witness :
  filePath standin.store0 = "/etc/atlas/users.json" /\
  ((os_ReadFile standin.disk0 "/etc/atlas/users.json" = inl ErrNotExist /\
    Users standin.store0 = ∅) \/
   (exists data, os_ReadFile standin.disk0 "/etc/atlas/users.json" = inr data /\
                 json_Unmarshal data ∅ = (Users standin.store0, None))).
Proof.
  exact (NewStore_outcomes "/etc/atlas/users.json" standin.disk0 json_plain_errors).
Defined.

Lemma userAdd_persists_witness :
  let run := userAdd tt "bob" "secret" standin_cli.disk2 in
  run.1.1 = None /\
  exists s1, getUserStore run.1.2 = inr s1 /\
             Authenticate "bob" "secret" s1 = true /\
             Authenticate "alice" "wonderland" s1 = true.
Proof.
  intros run.
  assert (Hrun : userAdd tt "bob" "secret" standin_cli.disk2 = (None, run.1.2, run.2))
    by (vm_compute; reflexivity).
  split; [vm_compute; reflexivity|].
  destruct (userAdd_persists (tt : @entropy standin.bcrypt72) "bob" "secret" "$2a$10$secret" standin_cli.disk2
              run.1.2 standin.store2 run.2 getUserStore_disk2)
    as (_ & s1 & Hs1 & _ & Hbob & Hothers).
  - vm_compute. reflexivity.
  - reflexivity.
  - apply json_plain_codec.
  - exact Hrun.
  - exists s1. split; [exact Hs1|]. split.
    + apply Hbob. vm_compute. reflexivity.
    + rewrite Hothers by discriminate. vm_compute. reflexivity.
Defined.

Lemma userAdd_existing_user_witness :
  userAdd tt "alice" "other" standin_cli.disk2
  = (Some (errAlreadyExists "alice"), standin_cli.disk2, []).
Proof.
  apply (userAdd_existing_user (tt : @entropy standin.bcrypt72) "alice" "other" standin_cli.disk2 standin.store2
           getUserStore_disk2).
  exists standin.alice. vm_compute. reflexivity.
Defined.

Lemma userRm_persists_witness :
  let run := userRm "alice" standin_cli.disk2 in
  run.1.1 = None /\
  exists s1, getUserStore run.1.2 = inr s1 /\
             Authenticate "alice" "wonderland" s1 = false /\
             Authenticate "carol" "x" s1 = true.
Proof.
  intros run.
  assert (Hrun : userRm "alice" standin_cli.disk2 = (None, run.1.2, run.2))
    by (vm_compute; reflexivity).
  split; [vm_compute; reflexivity|].
  destruct (userRm_persists "alice" standin_cli.disk2 run.1.2 standin.store2 run.2
              getUserStore_disk2)
    as (_ & s1 & Hs1 & _ & Halice & Hothers & _).
  - apply json_plain_codec.
  - exact Hrun.
  - exists s1. split; [exact Hs1|]. split; [apply Halice|].
    rewrite Hothers by discriminate. vm_compute. reflexivity.
Defined.

Lemma userLs_prints_each_user_witness :
  exists keys,
    NoDup keys /\ (forall u, u ∈ keys <-> is_Some (Users standin.store2 !! u)) /\
    userLs (@rev string) standin_cli.disk2
    = (None, ("Users:" +:+ newline) :: map (fun u => "- " +:+ u +:+ newline) keys).
Proof.
  assert (Hrev : forall l : list string, rev l ≡ₚ l)
    by (intros l; symmetry; apply Permutation_rev).
  destruct (userLs_prints_each_user (@rev string) standin_cli.disk2 standin.store2
              Hrev getUserStore_disk2) as (keys & Hnd & Hin & Hout).
  exists keys. split; [exact Hnd|]. split; [exact Hin|]. rewrite Hout.
  now rewrite bool_decide_eq_false_2 by (vm_compute; discriminate).
Defined.

Lemma unauthenticated_request_is_challenged_witness :
  let out := @handler standin.bcrypt72 (standin_cli.carrying (Some ("alice", "guess")))
               _ _ standin.srv10 standin.store2 standin.os4 standin.webdav _ _
               (newResponse ∅) standin.propfind_root in
  written out.1 = bytes "Unauthorized" ++ [ascii_of_nat 10] /\
  out.2 = ["Auth failed for user: alice"].
Proof.
  intros out.
  destruct (@unauthenticated_request_is_challenged standin.bcrypt72
              (standin_cli.carrying (Some ("alice", "guess"))) _ _
              standin.srv10 standin.store2 standin.os4 standin.webdav ∅
              standin.propfind_root) as (_ & Hbody & Hlog & _).
  - intros u p [= <- <-]. vm_compute. reflexivity.
  - split; [exact Hbody|exact Hlog].
Defined.

Lemma no_users_no_access_witness :
  let out := @handler standin.bcrypt72 (standin_cli.carrying (Some ("alice", "wonderland")))
               _ _ standin.srv10 standin.store0 standin.os4 standin.webdav _ _
               (newResponse ∅) standin.get_file in
  exists hdr, wroteHeader out.1 = Some (StatusUnauthorized, hdr).
Proof.
  intros out.
  exact (proj1 (@no_users_no_access standin.bcrypt72
                  (standin_cli.carrying (Some ("alice", "wonderland"))) _ _
                  standin.srv10 standin.store0 standin.os4 standin.webdav ∅
                  standin.get_file eq_refl)).
Defined.

Lemma handler_on_directory_witness :
  @handler standin.bcrypt72 (standin_cli.carrying (Some ("alice", "wonderland")))
    _ _ standin.srv10 standin.store2 standin.os4 standin.webdav _ _
    (newResponse ∅) standin.propfind_root
  = quotaMiddleware standin.srv10 standin.os4 standin.webdav (newResponse ∅)
      standin.propfind_root.
Proof.
  apply (@handler_on_directory standin.bcrypt72
           (standin_cli.carrying (Some ("alice", "wonderland"))) _ _
           standin.srv10 standin.store2 standin.os4 standin.webdav _ _
           (newResponse ∅) standin.propfind_root "alice" "wonderland" "").
  - reflexivity.
  - vm_compute. reflexivity.
  - reflexivity.
  - reflexivity.
Defined.

Lemma quotaMiddleware_transparent_witness :
  finishRequest (quotaMiddleware standin.srv10 standin.os4 standin.locked
                   (newResponse ∅) standin.propfind_root).1
  = finishRequest (ServeHTTP standin.locked (newResponse ∅) standin.propfind_root).
Proof.
  apply (quotaMiddleware_transparent standin.srv10 standin.os4 standin.locked ∅
           standin.propfind_root [] (Some 423) [bytes "Locked"]).
  - reflexivity.
  - intros _ _. discriminate.
Defined.


Lemma quota_flag_is_reported_witness :
  exists srv store,
    serverSetup standin_cli.disk2 = inr (srv, store) /\
    QuotaBytes srv = 1024 /\
    diskUsage srv standin.os4 = (1020, 4, None).
Proof.
  exists (New ":8080" "/srv/data" 1024), standin.store2.
  assert (Hsetup : serverSetup standin_cli.disk2
                   = inr (New ":8080" "/srv/data" 1024, standin.store2))
    by (vm_compute; reflexivity).
  split; [exact Hsetup|].
  apply (quota_flag_is_reported standin_cli.disk2 (New ":8080" "/srv/data" 1024)
           standin.store2 standin.os4 (bytes "1") (bytes "k") (2 ^ 10) 4 Hsetup).
  - reflexivity.
  - discriminate.
  - repeat constructor.
  - reflexivity.
  - vm_compute. split; reflexivity.
  - vm_compute. reflexivity.
Defined.

Lemma filesystem_figures_without_quota_witness :
  diskUsage standin.srv0
    {| GOOS_linux := true;
       os_Lstat := fun _ => inl ErrNotExist;
       syscall_Statfs := fun _ => inr {| Bavail := 3; Blocks := 10; Bsize := 4096 |} |}
  = (12288, 28672, None) /\ 12288 + 28672 = 10 * 4096.
Proof.
  apply (filesystem_figures_without_quota standin.srv0
           {| GOOS_linux := true;
              os_Lstat := fun _ => inl ErrNotExist;
              syscall_Statfs := fun _ => inr {| Bavail := 3; Blocks := 10; Bsize := 4096 |} |}
           {| Bavail := 3; Blocks := 10; Bsize := 4096 |}).
  - reflexivity.
  - reflexivity.
  - reflexivity.
  - cbn. lia.
  - cbn. unfold uint64_max. lia.
  - cbn. unfold uint64_max. lia.
Defined.

Lemma Logger_leaves_out_noise_witness :
  Logger {| Method := "PROPFIND"; Path := "/photos/Thumbs.DB/" |} (Some ErrNotExist) = [] /\
  Logger {| Method := "PROPFIND"; Path := "/photos/Thumbs.DB/" |} (Some ErrPermission)
  = ["WebDAV Error: PROPFIND /photos/Thumbs.DB/: permission denied"].
Proof.
  assert (Hname : "/"%char ∉ bytes "Thumbs.DB")
    by (intros Hin; repeat (apply elem_of_cons in Hin as [Hin|Hin]; [discriminate|]);
        now apply elem_of_nil in Hin).
  assert (Hascii : is_ascii (bytes "Thumbs.DB")) by (repeat constructor; vm_compute; lia).
  split.
  - apply (proj1 (proj2 (Logger_leaves_out_noise
                           {| Method := "PROPFIND"; Path := "/photos/Thumbs.DB/" |}
                           ErrNotExist (bytes "/photos/") (bytes "Thumbs.DB") (bytes "/")
                           eq_refl (or_intror (ex_intro _ (bytes "/photos") eq_refl))
                           ltac:(discriminate) Hname Hascii
                           ltac:(repeat constructor)))).
    split; [reflexivity|]. unfold noise. rewrite !elem_of_cons. right. right. left.
    reflexivity.
  - apply (proj2 (proj2 (Logger_leaves_out_noise
                           {| Method := "PROPFIND"; Path := "/photos/Thumbs.DB/" |}
                           ErrPermission (bytes "/photos/") (bytes "Thumbs.DB") (bytes "/")
                           eq_refl (or_intror (ex_intro _ (bytes "/photos") eq_refl))
                           ltac:(discriminate) Hname Hascii
                           ltac:(repeat constructor)))).
    vm_compute. discriminate.
Defined.

End MoreExamples.
